(** * Exscript.workqueue.MainLoop: the bounded-concurrency job scheduler

    A shallow embedding of [src/Exscript/workqueue/MainLoop.py].  The
    scheduler object is a record of its instance fields; every method is a
    computation in a small state-and-exception monad in which the state
    survives an exception (a Python method that raises keeps the mutations it
    already made).  Other threads (callers of the API, the job threads) are
    interleaved with the coordinator at the granularity of the monitor: a
    method body that runs under [with self.condition] is one atomic step. *)

From Stdlib Require Import ZArith List String Bool Arith Lia.
Import ListNotations.
Local Open Scope string_scope.
Local Open Scope list_scope.
Local Open Scope Z_scope.

Set Implicit Arguments.

(** ** Data model *)

(** The Action is an external collaborator.  The scheduler reads its [name],
    calls [__hash__()] on it and compares it with [==] / [in]; [aid] stands for
    the object identity that [==] falls back to.  The name is a string or
    [None]: [get_first_job_from_name] tests it with [is None]. *)
Record Action := mkAction {
  aname : option string;
  ahash : Z;
  aid   : nat
}.

Definition Action_eq_dec (a b : Action) : {a = b} + {a <> b}.
Proof.
  decide equality;
    [apply Nat.eq_dec | apply Z.eq_dec | decide equality; apply string_dec].
Defined.

Definition action_eqb (a b : Action) : bool :=
  if Action_eq_dec a b then true else false.

(** [x in xs] on a Python list of actions. *)
Definition action_in (a : Action) (xs : list Action) : bool :=
  existsb (action_eqb a) xs.

(** Modelled from the spec: the class [Exscript.workqueue.Job.Job] is imported
    by MainLoop.py from a module that is not among these sources.  A Job binds one
    Action ([action]) to a cached copy of its name ([name]), a retry budget
    ([times]), the count of failed attempts so far ([failures], starts at 0)
    and the outcome of the attempt ([exc_info]: [None] while pending or after
    a success, the failure information after a failure).  It is a thread:
    [alive] is what [is_alive()] answers.  [jid] is the identity of the Job
    object, by which [deque.remove] finds it and by which its own thread
    writes the outcome. *)
Record Job := mkJob {
  jid      : nat;
  action   : Action;
  name     : option string;
  times    : Z;
  failures : Z;
  exc_info : option string;
  alive    : bool
}.

(** [x == y] on two names, each a string or [None]. *)
Definition name_eqb (x y : option string) : bool :=
  match x, y with
  | Some a, Some b => String.eqb a b
  | None, None => true
  | _, _ => false
  end.

(** The signals handed to the event sink, in the order they fire. *)
Inductive Event :=
| job_started_event   (a : Action)
| job_error_event     (a : Action) (info : string)
| job_succeeded_event (a : Action)
| job_aborted_event   (a : Action)
| queue_empty_event.

(** The instance fields of [MainLoop.__init__] that the scheduling logic
    reads or writes ([debug] only selects what [_dbg] prints, and the five
    Event objects are the sink), plus two ghost fields: [next_jid], the allocator of Job
    identities, and [fired], the trace of the signals delivered so far. *)
Record MainLoop := mkMainLoop {
  queue            : list Job;
  force_start      : list Job;
  running_jobs     : list Job;
  sleeping_actions : list Action;
  paused           : bool;
  shutdown_now     : bool;
  max_threads      : Z;
  next_jid         : nat;
  fired            : list Event
}.

Definition init : MainLoop :=
  {| queue := []; force_start := []; running_jobs := [];
     sleeping_actions := []; paused := true; shutdown_now := false;
     max_threads := 1; next_jid := 0%nat; fired := [] |}.

(** Field updates. *)
Definition set_queue (q : list Job) (s : MainLoop) : MainLoop :=
  mkMainLoop q (force_start s) (running_jobs s) (sleeping_actions s)
             (paused s) (shutdown_now s) (max_threads s) (next_jid s) (fired s).
Definition set_force_start (f : list Job) (s : MainLoop) : MainLoop :=
  mkMainLoop (queue s) f (running_jobs s) (sleeping_actions s)
             (paused s) (shutdown_now s) (max_threads s) (next_jid s) (fired s).
Definition set_running_jobs (r : list Job) (s : MainLoop) : MainLoop :=
  mkMainLoop (queue s) (force_start s) r (sleeping_actions s)
             (paused s) (shutdown_now s) (max_threads s) (next_jid s) (fired s).
Definition set_sleeping_actions (l : list Action) (s : MainLoop) : MainLoop :=
  mkMainLoop (queue s) (force_start s) (running_jobs s) l
             (paused s) (shutdown_now s) (max_threads s) (next_jid s) (fired s).
Definition set_paused (b : bool) (s : MainLoop) : MainLoop :=
  mkMainLoop (queue s) (force_start s) (running_jobs s) (sleeping_actions s)
             b (shutdown_now s) (max_threads s) (next_jid s) (fired s).
Definition set_shutdown_now (b : bool) (s : MainLoop) : MainLoop :=
  mkMainLoop (queue s) (force_start s) (running_jobs s) (sleeping_actions s)
             (paused s) b (max_threads s) (next_jid s) (fired s).
Definition set_max (n : Z) (s : MainLoop) : MainLoop :=
  mkMainLoop (queue s) (force_start s) (running_jobs s) (sleeping_actions s)
             (paused s) (shutdown_now s) n (next_jid s) (fired s).
Definition set_next_jid (n : nat) (s : MainLoop) : MainLoop :=
  mkMainLoop (queue s) (force_start s) (running_jobs s) (sleeping_actions s)
             (paused s) (shutdown_now s) (max_threads s) n (fired s).
Definition fire (e : Event) (s : MainLoop) : MainLoop :=
  mkMainLoop (queue s) (force_start s) (running_jobs s) (sleeping_actions s)
             (paused s) (shutdown_now s) (max_threads s) (next_jid s)
             (fired s ++ [e]).

(** A batch of signals, fired in order. *)
Definition fire_all (es : list Event) (s : MainLoop) : MainLoop :=
  fold_left (fun s e => fire e s) es s.
Arguments fire_all : simpl never.

(** ** The state-and-exception monad *)

Inductive Exn :=
| AssertionError
| NameError (global : string)
| IndexError.

Inductive Result (A : Type) :=
| Ok    (a : A) (s : MainLoop)
| Raise (e : Exn) (s : MainLoop).
Arguments Raise {A} e s.

Definition M (A : Type) := MainLoop -> Result A.

Definition ret {A} (a : A) : M A := fun s => Ok a s.
Definition raise {A} (e : Exn) : M A := fun s => Raise e s.
Definition bind {A B} (m : M A) (k : A -> M B) : M B :=
  fun s => match m s with
           | Ok a s' => k a s'
           | Raise e s' => Raise e s'
           end.
Definition get : M MainLoop := fun s => Ok s s.
Definition modify (f : MainLoop -> MainLoop) : M unit := fun s => Ok tt (f s).
Definition py_assert (b : bool) : M unit :=
  if b then ret tt else raise AssertionError.

Declare Scope py_scope.
Delimit Scope py_scope with py.
Notation "x <- m ;; k" := (bind m (fun x => k))
  (at level 61, m at next level, right associativity) : py_scope.
Notation "m ;; k" := (bind m (fun _ => k))
  (at level 61, right associativity) : py_scope.
Local Open Scope py_scope.

(** [for x in xs: body(x)] *)
Fixpoint for_each {A} (xs : list A) (body : A -> M unit) : M unit :=
  match xs with
  | [] => ret tt
  | x :: rest => body x ;; for_each rest body
  end.

(** The state a computation ends in, whether it returned or raised. *)
Definition state_of {A} (r : Result A) : MainLoop :=
  match r with Ok _ s => s | Raise _ s => s end.

(** ** Collaborators outside MainLoop.py *)

(** Modelled from the spec: the constructor [Job(condition, action, name)] of
    the absent Job class.  A new Job has no failed attempt, no outcome, and
    its thread has not been started; Python gives it a fresh identity. *)
Definition new_Job (a : Action) (n : option string) : M Job :=
  s <- get ;;
  modify (set_next_jid (S (next_jid s))) ;;
  ret {| jid := next_jid s; action := a; name := n; times := 1;
         failures := 0; exc_info := None; alive := false |}.

(** Modelled from the spec: [job.start()] of the absent Job class starts the
    thread of execution, after which [is_alive()] holds until the run ends. *)
Definition started (j : Job) : Job :=
  mkJob (jid j) (action j) (name j) (times j) (failures j) (exc_info j) true.

(** Modelled from the spec: the end of a Job's thread of execution, in the
    absent Job class.  The outcome is recorded on the Job; a failure
    increments [failures]. *)
Definition ended (outcome : option string) (j : Job) : Job :=
  match outcome with
  | Some info =>
      mkJob (jid j) (action j) (name j) (times j) (failures j + 1) (Some info) false
  | None =>
      mkJob (jid j) (action j) (name j) (times j) (failures j) None false
  end.

(** Modelled from the spec: what a copy of a Job is, were [copy] callable: a
    fresh Job with the same Action, [times] and accumulated [failures]. *)
Definition copy_Job (j : Job) : M Job :=
  fresh <- new_Job (action j) (name j) ;;
  ret (mkJob (jid fresh) (action j) (name j) (times j) (failures j) None false).

(** The names MainLoop.py binds at module level, by its [import] statements
    (lines 15 to 20) and by its one [class] statement. *)
Definition module_globals : list string :=
  ["threading"; "gc"; "chain"; "defaultdict"; "deque"; "Event"; "Job";
   "MainLoop"].

(** The functions and types of Python 2's [__builtin__] module, which a
    global name falls back to. *)
Definition python2_builtins : list string :=
  ["abs"; "all"; "any"; "apply"; "basestring"; "bin"; "bool"; "buffer";
   "bytearray"; "bytes"; "callable"; "chr"; "classmethod"; "cmp"; "coerce";
   "compile"; "complex"; "delattr"; "dict"; "dir"; "divmod"; "enumerate";
   "eval"; "execfile"; "file"; "filter"; "float"; "format"; "frozenset";
   "getattr"; "globals"; "hasattr"; "hash"; "help"; "hex"; "id"; "input";
   "int"; "intern"; "isinstance"; "issubclass"; "iter"; "len"; "list";
   "locals"; "long"; "map"; "max"; "memoryview"; "min"; "next"; "object";
   "oct"; "open"; "ord"; "pow"; "print"; "property"; "range"; "raw_input";
   "reduce"; "reload"; "repr"; "reversed"; "round"; "set"; "setattr";
   "slice"; "sorted"; "staticmethod"; "str"; "sum"; "super"; "tuple"; "type";
   "unichr"; "unicode"; "vars"; "xrange"; "zip"; "__import__"].

(** Resolution of a global name inside a method of the module. *)
Definition global_bound (n : string) : bool :=
  existsb (String.eqb n) (module_globals ++ python2_builtins).

Definition load_global (n : string) : M unit :=
  if global_bound n then ret tt else raise (NameError n).

(** ** Queries *)

(** [chain(self.queue, self.force_start, self.running_jobs)] *)
Definition all_jobs (s : MainLoop) : list Job :=
  queue s ++ force_start s ++ running_jobs s.

Definition get_running_actions (s : MainLoop) : list Action :=
  map action (running_jobs s).

Definition in_progress (a : Action) (s : MainLoop) : bool :=
  action_in a (get_running_actions s).

Definition in_queue (a : Action) (s : MainLoop) : bool :=
  action_in a (map action (all_jobs s)).

Definition get_queue_length (s : MainLoop) : Z :=
  Z.of_nat (List.length (queue s)) + Z.of_nat (List.length (force_start s))
  + Z.of_nat (List.length (running_jobs s)).

(** The first job of a sequence whose name [==] the given one. *)
Definition first_named (n : option string) (js : list Job) : option Job :=
  find (fun j => name_eqb (name j) n) js.

(** [if job_name is None: return None] comes before the search. *)
Definition get_first_job_from_name (job_name : option string) (s : MainLoop)
  : option Job :=
  match job_name with
  | None => None
  | Some n => first_named (Some n) (all_jobs s)
  end.

Definition _get_action_from_hash (thehash : Z) (s : MainLoop) : option Action :=
  match find (fun j => ahash (action j) =? thehash) (all_jobs s) with
  | Some j => Some (action j)
  | None => None
  end.

Definition get_max_threads (s : MainLoop) : Z := max_threads s.
Definition is_paused (s : MainLoop) : bool := paused s.

(** ** The admission API *)

(** The argument of [set_max_threads]: [None] or an integer. *)
Inductive PyArg :=
| PyNone
| PyInt (n : Z).

Definition is_not_None (x : PyArg) : bool :=
  match x with PyNone => false | PyInt _ => true end.

(** [int(x)] on an argument that passed [is not None]. *)
Definition py_int (x : PyArg) : Z :=
  match x with PyNone => 0 | PyInt n => n end.

Definition set_max_threads (n : PyArg) : M unit :=
  py_assert (is_not_None n) ;;
  modify (set_max (py_int n)).

Definition _create_job (a : Action) (t : Z) : M Job :=
  job <- new_Job a (aname a) ;;
  ret (mkJob (jid job) (action job) (name job) t (failures job)
             (exc_info job) (alive job)).

Definition enqueue (a : Action) (t : Z) : M unit :=
  job <- _create_job a t ;;
  modify (fun s => set_queue (queue s ++ [job]) s).

Definition enqueue_or_ignore (a : Action) (t : Z) : M bool :=
  s <- get ;;
  match get_first_job_from_name (aname a) s with
  | None =>
      job <- _create_job a t ;;
      modify (fun s => set_queue (queue s ++ [job]) s) ;;
      ret true
  | Some _ => ret false
  end.

Definition priority_enqueue (a : Action) (force : bool) (t : Z) : M unit :=
  job <- _create_job a t ;;
  if force
  then modify (fun s => set_force_start (force_start s ++ [job]) s)
  else modify (fun s => set_queue (job :: queue s) s).

(** [deque.remove(x)]: drops the first element equal to [x]; Jobs compare by
    identity. *)
Fixpoint remove_job (x : Job) (js : list Job) : list Job :=
  match js with
  | [] => []
  | j :: rest => if Nat.eqb (jid j) (jid x) then rest else j :: remove_job x rest
  end.

Definition priority_enqueue_or_raise (a : Action) (force : bool) (t : Z)
  : M bool :=
  s <- get ;;
  match first_named (aname a) (force_start s ++ running_jobs s) with
  | Some _ => ret false
  | None =>
      let existing := first_named (aname a) (queue s) in
      a' <- match existing with
            | Some ex =>
                modify (fun s => set_queue (remove_job ex (queue s)) s) ;;
                ret (action ex)
            | None => ret a
            end ;;
      job <- _create_job a' t ;;
      (if force
       then modify (fun s => set_force_start (force_start s ++ [job]) s)
       else modify (fun s => set_queue (job :: queue s) s)) ;;
      ret (match existing with None => true | Some _ => false end)
  end.

Definition pause : M unit := modify (set_paused true).
Definition resume : M unit := modify (set_paused false).

(** ** Cooperative sleep *)

(** [list.remove(x)]: drops the first element equal to [x]. *)
Fixpoint remove_action (x : Action) (xs : list Action) : list Action :=
  match xs with
  | [] => []
  | y :: rest => if action_eqb y x then rest else y :: remove_action x rest
  end.

Definition _action_sleep_notify (a : Action) : M unit :=
  s <- get ;;
  py_assert (in_progress a s) ;;
  modify (fun s => set_sleeping_actions (sleeping_actions s ++ [a]) s).

Definition _action_wake_notify (a : Action) : M unit :=
  s <- get ;;
  py_assert (in_progress a s) ;;
  py_assert (action_in a (sleeping_actions s)) ;;
  modify (fun s => set_sleeping_actions (remove_action a (sleeping_actions s)) s).

(** ** The coordinator *)

(** [running_jobs.append(job)], the started signal, [job.start()]: the Job
    object that sits in [running_jobs] is the one whose thread now runs. *)
Definition _start_job (job : Job) : M unit :=
  modify (fun s => set_running_jobs (running_jobs s ++ [started job]) s) ;;
  modify (fire (job_started_event (action job))).

(** [self._start_job(copy(job))]: the argument is evaluated first, and
    evaluating it starts with the lookup of the global name [copy]. *)
Definition _restart_job (job : Job) : M unit :=
  load_global "copy" ;;
  fresh <- copy_Job job ;;
  _start_job fresh.

(** [if job.exc_info:] is the test of an optional value against [None]. *)
Definition _on_job_completed (job : Job) : M unit :=
  match exc_info job with
  | Some info =>
      modify (fire (job_error_event (action job) info)) ;;
      if failures job >=? times job
      then modify (fire (job_aborted_event (action job)))
      else _restart_job job
  | None => modify (fire (job_succeeded_event (action job)))
  end.

(** The jobs whose thread has ended are taken out of [running_jobs] first and
    handled afterwards ([job.join()] on an ended thread returns at once). *)
Definition _update_running_jobs : M unit :=
  s <- get ;;
  let running := filter alive (running_jobs s) in
  let completed := filter (fun j => negb (alive j)) (running_jobs s) in
  modify (set_running_jobs running) ;;
  for_each completed _on_job_completed.

(** How one pass through the body of [run]'s [while] loop ends: in one of the
    two [condition.wait()] followed by [continue], or after an admission. *)
Inductive Pass :=
| waits
| admitted (job : Job).

Definition active (s : MainLoop) : Z :=
  Z.of_nat (List.length (running_jobs s))
  - Z.of_nat (List.length (sleeping_actions s)).

(** [if self.get_queue_length() == 0: self.queue_empty_event()] *)
Definition signal_if_empty : M unit :=
  s <- get ;;
  if get_queue_length s =? 0 then modify (fire queue_empty_event) else ret tt.

(** "If there are any actions to be force_started, run them now." *)
Definition start_forced : M unit :=
  s <- get ;;
  for_each (force_start s) _start_job ;;
  modify (set_force_start []).

(** The two gates ("Don't bother looking if the queue is empty", "Wait until
    we have less than the maximum number of threads") and the admission
    ("Take the next action and start it in a new thread"). *)
Definition admit_next : M Pass :=
  s <- get ;;
  if (Z.of_nat (List.length (queue s)) <=? 0) || paused s then ret waits
  else if active s >=? max_threads s then ret waits
  else match queue s with
       | [] => raise IndexError
       | job :: rest =>
           modify (set_queue rest) ;;
           _start_job job ;;
           ret (admitted job)
       end.

(** The body of the [while not self.shutdown_now] loop of [run]. *)
Definition run_pass : M Pass :=
  _update_running_jobs ;;
  signal_if_empty ;;
  start_forced ;;
  admit_next.

(** ** Blocking *)

(** A blocking call is followed from the moment its caller holds the monitor.

    [while cond(): self.condition.wait()].  The waiter sees the state at its
    entry and then, at each wake-up, the state the other threads have left;
    [wakeups] lists these in order.  The loop returns at the first state in
    which [cond] is false, with the wake-ups it has not consumed; it is still
    blocked when [wakeups] runs out first. *)
Fixpoint wait_while (cond : MainLoop -> bool) (s : MainLoop)
  (wakeups : list MainLoop) : option (MainLoop * list MainLoop) :=
  if cond s then
    match wakeups with
    | [] => None
    | s' :: rest => wait_while cond s' rest
    end
  else Some (s, wakeups).

Definition wait_until_done (s : MainLoop) (wakeups : list MainLoop)
  : option (MainLoop * list MainLoop) :=
  wait_while (fun s => get_queue_length s >? 0) s wakeups.

(** [wait_for] takes an Action or, as [isinstance(action, int)] tells, the
    hash of one. *)
Inductive ActionOrHash :=
| an_action (a : Action)
| a_hash (h : Z).

Definition wait_for (x : ActionOrHash) (s : MainLoop) (wakeups : list MainLoop)
  : option (MainLoop * list MainLoop) :=
  match x with
  | a_hash h =>
      match _get_action_from_hash h s with
      | None => Some (s, wakeups)
      | Some a => wait_while (in_queue a) s wakeups
      end
  | an_action a => wait_while (in_queue a) s wakeups
  end.

(** Modelled from the spec: [job.join()] of the absent Job class blocks until
    the Job's thread of execution has finished. *)
Definition thread_alive (j : Job) (s : MainLoop) : bool :=
  existsb (fun x => Nat.eqb (jid x) (jid j) && alive x) (running_jobs s).

Definition join (j : Job) (s : MainLoop) (wakeups : list MainLoop)
  : option (MainLoop * list MainLoop) :=
  wait_while (thread_alive j) s wakeups.

(** [for job in jobs: job.join()] *)
Fixpoint join_each (jobs : list Job) (s : MainLoop) (wakeups : list MainLoop)
  : option (MainLoop * list MainLoop) :=
  match jobs with
  | [] => Some (s, wakeups)
  | j :: rest =>
      match join j s wakeups with
      | None => None
      | Some (s', later) => join_each rest s' later
      end
  end.

(** [shutdown]: the part under the monitor, which returns the list it goes on
    to iterate, and the whole call, which blocks in the joins. *)
Definition shutdown_latch : M (list Job) :=
  modify (set_shutdown_now true) ;;
  s <- get ;;
  ret (running_jobs s).

Definition shutdown (s : MainLoop) (wakeups : list MainLoop)
  : option (MainLoop * list MainLoop) :=
  match shutdown_latch s with
  | Ok jobs s' => join_each jobs s' wakeups
  | Raise _ _ => None
  end.

(** ** The scheduler among its threads *)

(** Where the coordinator thread stands: at the head of [run]'s loop, past
    the loop (it saw [shutdown_now]), or dead of an exception that escaped
    [run]. *)
Inductive Coordinator :=
| looping
| terminated
| died (e : Exn).

Record System := mkSystem {
  loop        : MainLoop;
  coordinator : Coordinator
}.

(** The scheduler once constructed and started. *)
Definition boot : System := {| loop := init; coordinator := looping |}.

(** The steps of the threads around the monitor: the calls of the API, the
    end of a job's thread, and one pass of the coordinator. *)
Inductive Op :=
| call_enqueue (a : Action) (t : Z)
| call_enqueue_or_ignore (a : Action) (t : Z)
| call_priority_enqueue (a : Action) (force : bool) (t : Z)
| call_priority_enqueue_or_raise (a : Action) (force : bool) (t : Z)
| call_pause
| call_resume
| call_set_max_threads (n : PyArg)
| call_sleep_notify (a : Action)
| call_wake_notify (a : Action)
| call_shutdown
| thread_ends (j : nat) (outcome : option string)
| coordinator_runs.

(** The thread of the running job [j] ends with [outcome]. *)
Definition end_thread (j : nat) (outcome : option string) (s : MainLoop)
  : MainLoop :=
  set_running_jobs
    (map (fun x => if Nat.eqb (jid x) j && alive x then ended outcome x else x)
         (running_jobs s)) s.

(** [while not self.shutdown_now: <pass>], one test of the condition at a
    time. *)
Definition coordinator_step (sys : System) : System :=
  match coordinator sys with
  | looping =>
      if shutdown_now (loop sys)
      then mkSystem (loop sys) terminated
      else match run_pass (loop sys) with
           | Ok _ s' => mkSystem s' looping
           | Raise e s' => mkSystem s' (died e)
           end
  | _ => sys
  end.

(** [run] takes the monitor with [self.condition.acquire()] and gives it back
    only while it waits or hands a job over; when an exception escapes [run],
    the lock stays owned by the coordinator that died.  [threading.Condition()]
    wraps an RLock, whose owner is a thread ident: from then on a caller gets
    in only if it runs in a thread that has been given the ident of the dead
    coordinator.  [monitor_free] tells that no dead thread owns the monitor. *)
Definition monitor_free (sys : System) : bool :=
  match coordinator sys with
  | died _ => false
  | _ => true
  end.

(** A call of the API from another thread, taken from the moment the caller
    holds the monitor: a caller that is never given the monitor changes
    nothing and is no step of the system.  An exception the call raises is
    the caller's, and the scheduler keeps the state the call has left. *)
Definition call {A} (m : M A) (sys : System) : System :=
  mkSystem (state_of (m (loop sys))) (coordinator sys).

Definition exec (op : Op) (sys : System) : System :=
  match op with
  | call_enqueue a t => call (enqueue a t) sys
  | call_enqueue_or_ignore a t => call (enqueue_or_ignore a t) sys
  | call_priority_enqueue a f t => call (priority_enqueue a f t) sys
  | call_priority_enqueue_or_raise a f t =>
      call (priority_enqueue_or_raise a f t) sys
  | call_pause => call pause sys
  | call_resume => call resume sys
  | call_set_max_threads n => call (set_max_threads n) sys
  | call_sleep_notify a => call (_action_sleep_notify a) sys
  | call_wake_notify a => call (_action_wake_notify a) sys
  | call_shutdown => call shutdown_latch sys
  | thread_ends j outcome =>
      mkSystem (end_thread j outcome (loop sys)) (coordinator sys)
  | coordinator_runs => coordinator_step sys
  end.

Fixpoint exec_all (ops : list Op) (sys : System) : System :=
  match ops with
  | [] => sys
  | op :: rest => exec_all rest (exec op sys)
  end.

(** The states the system passes through, one after each step. *)
Fixpoint history (ops : list Op) (sys : System) : list System :=
  match ops with
  | [] => []
  | op :: rest => exec op sys :: history rest (exec op sys)
  end.

(** ** Concrete actions and runs, for the examples *)

Definition actA : Action := {| aname := Some "A"; ahash := 101; aid := 1 |}.
Definition actB : Action := {| aname := Some "B"; ahash := 102; aid := 2 |}.
Definition actA' : Action := {| aname := Some "A"; ahash := 103; aid := 3 |}.
Definition actB' : Action := {| aname := Some "B"; ahash := 104; aid := 4 |}.
Definition actC : Action := {| aname := Some "C"; ahash := 105; aid := 5 |}.

(** Two actions that were given no name. *)
Definition anon : Action := {| aname := None; ahash := 106; aid := 6 |}.
Definition anon' : Action := {| aname := None; ahash := 107; aid := 7 |}.

(** ** Vocabulary of the statements *)

(** The Job that [_create_job(a, t)] builds in state [s]. *)
Definition created_job (s : MainLoop) (a : Action) (t : Z) : Job :=
  {| jid := next_jid s; action := a; name := aname a; times := t;
     failures := 0; exc_info := None; alive := false |}.

(** Where the priority enqueues put a job: the tail of [force_start] or the
    head of [queue]. *)
Definition placed (force : bool) (job : Job) (s : MainLoop) : MainLoop :=
  if force then set_force_start (force_start s ++ [job]) s
  else set_queue (job :: queue s) s.

(** How many jobs of the system carry the name [n]. *)
Definition named_count (n : option string) (s : MainLoop) : nat :=
  List.length (filter (fun j => name_eqb (name j) n) (all_jobs s)).

(** A series of [enqueue_or_ignore] calls, one after the other. *)
Fixpoint enqueue_or_ignore_each (calls : list (Action * Z)) (s : MainLoop)
  : MainLoop :=
  match calls with
  | [] => s
  | (a, t) :: rest =>
      enqueue_or_ignore_each rest (state_of (enqueue_or_ignore a t s))
  end.

(** A scheduler in which A runs and sleeps while B waits in the queue. *)
Definition asleep : System :=
  exec_all [call_resume; call_enqueue actA 1; call_enqueue actB 1;
            coordinator_runs; call_sleep_notify actA] boot.

(** The scheduler of [asleep] once a nameless action has been enqueued
    through [enqueue_or_ignore]. *)
Definition nameless_queued : System :=
  exec (call_enqueue_or_ignore anon 1) asleep.

(** What a waiter sees after A's thread has ended and the coordinator has
    made its next pass. *)
Definition asleep_later : list MainLoop :=
  map loop (history [thread_ends 0 None; coordinator_runs] asleep).

(** The running jobs a pass keeps (their thread is alive), and the running
    jobs once the pass has also started the forced ones. *)
Definition kept (s : MainLoop) : list Job := filter alive (running_jobs s).

Definition kept_and_forced (s : MainLoop) : list Job :=
  kept s ++ map started (force_start s).

(** The active count the concurrency gate of a pass computes. *)
Definition gate_count (s : MainLoop) : Z :=
  Z.of_nat (List.length (kept_and_forced s))
  - Z.of_nat (List.length (sleeping_actions s)).

(** The steps of a run in which jobs are admitted through [enqueue] alone:
    no force-start, no change of the limit, and no wake-up of a sleeper. *)
Definition enqueue_only_step (op : Op) : bool :=
  match op with
  | call_enqueue _ _ | call_pause | call_resume | call_sleep_notify _
  | call_shutdown | thread_ends _ _ | coordinator_runs => true
  | _ => false
  end.

(** Every step but a call of [resume]. *)
Definition not_resume (op : Op) : bool :=
  match op with
  | call_resume => false
  | _ => true
  end.

(** A job whose attempt has failed once out of a budget of two. *)
Definition failed_once : Job :=
  {| jid := 0; action := actA; name := Some "A"; times := 2; failures := 1;
     exc_info := Some "boom"; alive := false |}.

(** The run of an action that is given two attempts and fails. *)
Definition failing_run : list Op :=
  [call_resume; call_enqueue actA 2; coordinator_runs;
   thread_ends 0 (Some "boom"); coordinator_runs; coordinator_runs].

(** Three actions come in under a limit of two: two passes admit A and B,
    and the third finds the gate shut and leaves C in the queue. *)
Definition gated_run : list Op :=
  [call_resume; call_enqueue actA 1; call_enqueue actB 1; call_enqueue actC 1;
   coordinator_runs; coordinator_runs; coordinator_runs].

(** The scheduler of [gated_run] before the pass that admits B, and before
    the pass that finds the gate shut. *)
Definition gate_open : MainLoop :=
  loop (exec_all (firstn 5 gated_run)
          (exec (call_set_max_threads (PyInt 2)) boot)).

Definition gate_shut : MainLoop :=
  loop (exec_all (firstn 6 gated_run)
          (exec (call_set_max_threads (PyInt 2)) boot)).

(** A sleeps, B is admitted in its place, A wakes up. *)
Definition sleeper_wakes : list Op :=
  [call_resume; call_enqueue actA 1; call_enqueue actB 1; coordinator_runs;
   call_sleep_notify actA; coordinator_runs; call_wake_notify actA].

(** What the scheduler has while jobs come in through [enqueue] alone: nothing
    to force-start, the limit [n], and an active count within it. *)
Definition within_limit (n : Z) (s : MainLoop) : Prop :=
  force_start s = [] /\ max_threads s = n /\ active s <= max_threads s.

(** A succession of states along which threads end and none starts. *)
Fixpoint only_ending (s : MainLoop) (later : list MainLoop) : Prop :=
  match later with
  | [] => True
  | s' :: rest =>
      (forall j, thread_alive j s' = true -> thread_alive j s = true)
      /\ only_ending s' rest
  end.

(** A scheduler with B in the queue and A running, and what follows a
    shutdown: the coordinator leaves its loop, then A's thread ends. *)
Definition busy : System :=
  exec_all [call_resume; call_enqueue actA 1; call_enqueue actB 1;
            coordinator_runs] boot.

(** A scheduler whose coordinator has died of the retry of A while B waits
    in the queue. *)
Definition stalled : System :=
  exec_all [call_resume; call_enqueue actA 2; call_enqueue actB 1;
            coordinator_runs; thread_ends 0 (Some "boom"); coordinator_runs]
           boot.

Definition after_shutdown : list Op :=
  [coordinator_runs; thread_ends 0 None; coordinator_runs].

(** ** Vocabulary of the further statements *)

(** A series of [enqueue] calls, one after the other. *)
Fixpoint enqueue_each (calls : list (Action * Z)) (s : MainLoop) : MainLoop :=
  match calls with
  | [] => s
  | (a, t) :: rest => enqueue_each rest (state_of (enqueue a t s))
  end.

(** The running jobs whose thread has ended: the ones a pass takes out. *)
Definition completed (s : MainLoop) : list Job :=
  filter (fun j => negb (alive j)) (running_jobs s).

(** A completed job that [_on_job_completed] goes on to restart. *)
Definition to_retry (j : Job) : bool :=
  match exc_info j with
  | Some _ => negb (failures j >=? times j)
  | None => false
  end.

Definition settled (j : Job) : bool := negb (to_retry j).

(** The signals [_on_job_completed] fires for one job. *)
Definition outcome_signals (j : Job) : list Event :=
  match exc_info j with
  | None => [job_succeeded_event (action j)]
  | Some info =>
      if failures j >=? times j
      then [job_error_event (action j) info; job_aborted_event (action j)]
      else [job_error_event (action j) info]
  end.

(** The queue-empty signal of a pass, fired when the reaping has left no job
    anywhere. *)
Definition idle_signal (s : MainLoop) : list Event :=
  match queue s, force_start s, kept s with
  | [], [], [] => [queue_empty_event]
  | _, _, _ => []
  end.

(** The job-started signal of the admission that ends a pass. *)
Definition admission_signal (p : Pass) : list Event :=
  match p with
  | waits => []
  | admitted job => [job_started_event (action job)]
  end.

(** How many jobs of a list are the Job object [k]. *)
Definition idcount (k : nat) (l : list Job) : nat :=
  count_occ Nat.eq_dec (map jid l) k.
Arguments idcount : simpl never.

(** A job as its constructor leaves it: its thread has not been started and
    no attempt has been recorded. *)
Definition unstarted (j : Job) : Prop :=
  alive j = false /\ failures j = 0 /\ exc_info j = None.

(** The Job objects of a scheduler are pairwise distinct, were allocated
    before [next_jid] and carry the name of their action, and the ones in
    [queue] and [force_start] have not been started. *)
Definition well_formed (s : MainLoop) : Prop :=
  NoDup (map jid (all_jobs s))
  /\ (forall j, In j (all_jobs s) ->
                (jid j < next_jid s)%nat /\ name j = aname (action j))
  /\ (forall j, In j (queue s ++ force_start s) -> unstarted j).

(** The steps that are neither a sleep nor a wake notification. *)
Definition not_sleep_wake (op : Op) : bool :=
  match op with
  | call_sleep_notify _ | call_wake_notify _ => false
  | _ => true
  end.

(** A, B and C run side by side and their threads end: A and C succeed, B
    fails the first of its two attempts. *)
Definition three_ended : System :=
  exec_all [call_resume; call_set_max_threads (PyInt 3);
            call_enqueue actA 1; call_enqueue actB 2; call_enqueue actC 1;
            coordinator_runs; coordinator_runs; coordinator_runs;
            thread_ends 0 None; thread_ends 1 (Some "boom");
            thread_ends 2 None] boot.

(** A has ended with success while B waits in the queue. *)
Definition one_ended : System :=
  exec_all [thread_ends 0 None] busy.

(** The signals that tell of the action [a]: the one that marks the start of
    a job of [a], and the two that mark its end. *)
Definition is_started_of (a : Action) (e : Event) : bool :=
  match e with
  | job_started_event b => action_eqb b a
  | _ => false
  end.

Definition is_terminal_of (a : Action) (e : Event) : bool :=
  match e with
  | job_succeeded_event b | job_aborted_event b => action_eqb b a
  | _ => false
  end.

(** How many of the signals fired so far satisfy [f]. *)
Definition fired_count (f : Event -> bool) (s : MainLoop) : nat :=
  List.length (filter f (fired s)).

(** How many of the jobs in [l] are jobs of the action [a]. *)
Definition jobs_of (a : Action) (l : list Job) : nat :=
  List.length (filter (fun j => action_eqb (action j) a) l).
Arguments jobs_of : simpl never.

(** Every job-started of [a] is matched by a job of [a] still in
    [running_jobs] or by a job-succeeded or job-aborted of [a]: as an
    inequality, and as an equality while [exact] holds. *)
Definition accounted (exact : bool) (a : Action) (s : MainLoop) : Prop :=
  (fired_count (is_terminal_of a) s + jobs_of a (running_jobs s)
   <= fired_count (is_started_of a) s)%nat
  /\ (exact = true ->
      fired_count (is_started_of a) s
      = (fired_count (is_terminal_of a) s + jobs_of a (running_jobs s))%nat).

(** B is started twice, by [enqueue] and by a forced priority enqueue, and
    one of its two jobs has ended with success, as the job of A has. *)
Definition twice_started : list Op :=
  [call_resume; call_enqueue actA 1; call_enqueue actB 1; coordinator_runs;
   call_priority_enqueue actB true 1; coordinator_runs;
   thread_ends 0 None; coordinator_runs; thread_ends 2 None;
   coordinator_runs].

(** ** Generic tactics *)

Ltac unfold_monad :=
  unfold py_assert, load_global in *;
  unfold bind, ret, raise, get, modify in *.

Ltac run_monad := unfold_monad; cbn.

Ltac break_match :=
  repeat match goal with
         | |- context [match ?x with _ => _ end] =>
             lazymatch x with
             | context [match _ with _ => _ end] => fail
             | _ => destruct x eqn:?; cbn
             end
         end.

(** Unfolds a call of the API down to the case analysis it makes. *)
Ltac api :=
  unfold enqueue, enqueue_or_ignore, priority_enqueue,
    priority_enqueue_or_raise, pause, resume, set_max_threads,
    _action_sleep_notify, _action_wake_notify, shutdown_latch, _create_job,
    new_Job, get_first_job_from_name;
  run_monad; break_match.

(** * Theorems *)

(** What holds before a call and in the state its body leaves holds after the
    call. *)
Lemma call_cases {A} (m : M A) (sys : System) (P : MainLoop -> Prop) :
  P (loop sys) -> P (state_of (m (loop sys))) -> P (loop (call m sys)).
Proof. unfold call. auto. Qed.

(** ** Equality of actions *)

Lemma action_eqb_eq a b : action_eqb a b = true <-> a = b.
Proof. unfold action_eqb; destruct (Action_eq_dec a b); split; congruence. Qed.

Lemma action_eqb_refl a : action_eqb a a = true.
Proof. now apply action_eqb_eq. Qed.

Lemma action_in_In a xs : action_in a xs = true <-> In a xs.
Proof.
  unfold action_in; rewrite existsb_exists; split.
  - intros [x [Hx He]]; apply action_eqb_eq in He; now subst.
  - intros H; exists a; split; [assumption | apply action_eqb_refl].
Qed.

(** ** Equality of names *)

Lemma name_eqb_eq (x y : option string) : name_eqb x y = true <-> x = y.
Proof.
  destruct x as [a|], y as [b|]; cbn; try (split; congruence).
  rewrite String.eqb_eq. split; congruence.
Qed.

Lemma name_eqb_refl (x : option string) : name_eqb x x = true.
Proof. now apply name_eqb_eq. Qed.

Lemma name_eqb_neq (x y : option string) : name_eqb x y = false <-> x <> y.
Proof.
  rewrite <- name_eqb_eq. destruct (name_eqb x y); split; congruence.
Qed.

Lemma name_eqb_spec (x y : option string) : reflect (x = y) (name_eqb x y).
Proof.
  destruct (name_eqb x y) eqn:E; constructor.
  - now apply name_eqb_eq.
  - now apply name_eqb_neq.
Qed.

(** ** The concurrency limit setter *)

(** C8 (as stated, refuted): a negative limit is accepted in silence;
    [set_max_threads(-3)] returns normally and leaves [max_threads = -3]. *)
Lemma set_max_threads_accepts_negative :
  set_max_threads (PyInt (-3)) init = Ok tt (set_max (-3) init)
  /\ max_threads (set_max (-3) init) = -3.
Proof. split; reflexivity. Qed.

(** C8 (amended): [set_max_threads(n)] aborts with an assertion failure,
    leaving the scheduler untouched, exactly when [n] is [None]; for every
    integer [n], negative or not, it returns normally with [max_threads = n]
    and every other field as it was. *)
Theorem set_max_threads_spec (s : MainLoop) :
  set_max_threads PyNone s = Raise AssertionError s
  /\ forall n : Z,
       set_max_threads (PyInt n) s = Ok tt (set_max n s)
       /\ get_max_threads (set_max n s) = n
       /\ queue (set_max n s) = queue s
       /\ force_start (set_max n s) = force_start s
       /\ running_jobs (set_max n s) = running_jobs s
       /\ sleeping_actions (set_max n s) = sleeping_actions s
       /\ paused (set_max n s) = paused s
       /\ shutdown_now (set_max n s) = shutdown_now s.
Proof.
  split; [reflexivity | intros n; repeat split].
Qed.

(** ** Cooperative sleep *)

Lemma remove_action_count (a : Action) (xs : list Action) :
  In a xs ->
  S (count_occ Action_eq_dec (remove_action a xs) a) = count_occ Action_eq_dec xs a.
Proof.
  induction xs as [|y ys IH]; cbn; [tauto|].
  intros Hin. unfold action_eqb.
  destruct (Action_eq_dec y a) as [->|Hne].
  - reflexivity.
  - cbn. destruct (Action_eq_dec y a); [contradiction|].
    apply IH. destruct Hin; [contradiction | assumption].
Qed.

Lemma remove_action_length (a : Action) (xs : list Action) :
  In a xs -> S (List.length (remove_action a xs)) = List.length xs.
Proof.
  induction xs as [|y ys IH]; cbn; [tauto|].
  intros Hin. unfold action_eqb.
  destruct (Action_eq_dec y a) as [->|Hne]; [reflexivity|].
  cbn. f_equal. apply IH. destruct Hin; [contradiction | assumption].
Qed.

Lemma in_progress_In (a : Action) (s : MainLoop) :
  in_progress a s = true <-> In a (get_running_actions s).
Proof. apply action_in_In. Qed.

Lemma not_true_false (b : bool) (P : Prop) :
  (b = true <-> P) -> ~ P -> b = false.
Proof. destruct b; intuition. Qed.

Lemma remove_action_In (a : Action) (xs : list Action) :
  In a xs ->
  (In a (remove_action a xs) <-> (2 <= count_occ Action_eq_dec xs a)%nat).
Proof.
  intros Hin. pose proof (remove_action_count a xs Hin) as Hc.
  rewrite (count_occ_In Action_eq_dec). lia.
Qed.

(** C9, as the code has it: [_action_sleep_notify] (mark_sleeping) raises
    AssertionError, and changes nothing, unless the action is running; when
    it is running the call returns and appends the action to
    [sleeping_actions], a list, whether it is in it already or not.
    [_action_wake_notify] (mark_awake) raises AssertionError, and changes
    nothing, unless the action is running and in [sleeping_actions]; when both
    hold the call returns and [sleeping_actions.remove(action)] has taken one
    occurrence of the action out: the action is still in [sleeping_actions]
    afterwards exactly when it was in it twice or more. *)
Theorem sleep_wake_notify_spec (a : Action) (s : MainLoop) :
  (In a (get_running_actions s) ->
     _action_sleep_notify a s
       = Ok tt (set_sleeping_actions (sleeping_actions s ++ [a]) s)
     /\ In a (sleeping_actions s ++ [a])
     /\ count_occ Action_eq_dec (sleeping_actions s ++ [a]) a
        = S (count_occ Action_eq_dec (sleeping_actions s) a))
  /\ (~ In a (get_running_actions s) ->
     _action_sleep_notify a s = Raise AssertionError s)
  /\ (In a (get_running_actions s) -> In a (sleeping_actions s) ->
     _action_wake_notify a s
       = Ok tt (set_sleeping_actions (remove_action a (sleeping_actions s)) s)
     /\ S (count_occ Action_eq_dec (remove_action a (sleeping_actions s)) a)
        = count_occ Action_eq_dec (sleeping_actions s) a
     /\ S (List.length (remove_action a (sleeping_actions s)))
        = List.length (sleeping_actions s)
     /\ (In a (remove_action a (sleeping_actions s))
         <-> (2 <= count_occ Action_eq_dec (sleeping_actions s) a)%nat))
  /\ (~ (In a (get_running_actions s) /\ In a (sleeping_actions s)) ->
     _action_wake_notify a s = Raise AssertionError s).
Proof.
  split; [|split; [|split]].
  - intros H. split; [|split].
    + apply in_progress_In in H.
      unfold _action_sleep_notify; run_monad. now rewrite H.
    + apply in_or_app; right; now left.
    + rewrite count_occ_app. cbn.
      destruct (Action_eq_dec a a); [lia | contradiction].
  - intros Hn. apply (not_true_false (in_progress_In a s)) in Hn.
    unfold _action_sleep_notify; run_monad. now rewrite Hn.
  - intros H H0. split; [|split; [|split]].
    + apply in_progress_In in H. apply action_in_In in H0.
      unfold _action_wake_notify; run_monad. rewrite H; cbn. now rewrite H0.
    + now apply remove_action_count.
    + now apply remove_action_length.
    + now apply remove_action_In.
  - intros Hn. unfold _action_wake_notify; run_monad.
    destruct (in_progress a s) eqn:Hp; cbn; [|reflexivity].
    destruct (action_in a (sleeping_actions s)) eqn:Hs; cbn; [|reflexivity].
    exfalso; apply Hn; split;
      [now apply in_progress_In | now apply action_in_In].
Qed.

Lemma sleep_wake_notify_witness :
  _action_sleep_notify actA (loop asleep)
    = Ok tt (set_sleeping_actions (sleeping_actions (loop asleep) ++ [actA])
                                  (loop asleep))
  /\ _action_sleep_notify actB (loop asleep) = Raise AssertionError (loop asleep)
  /\ _action_wake_notify actA (loop asleep)
    = Ok tt (set_sleeping_actions [] (loop asleep))
  /\ ~ In actA (remove_action actA (sleeping_actions (loop asleep)))
  /\ _action_wake_notify actB (loop asleep) = Raise AssertionError (loop asleep).
Proof.
  destruct (sleep_wake_notify_spec actA (loop asleep)) as (Hs & _ & Hw & _).
  destruct (sleep_wake_notify_spec actB (loop asleep)) as (_ & Hs' & _ & Hw').
  split; [|split; [|split; [|split]]].
  - apply Hs. cbn. left; reflexivity.
  - apply Hs'. cbn. intros [H|[]]; discriminate.
  - apply Hw; cbn; left; reflexivity.
  - destruct Hw as (_ & _ & _ & Hin); [cbn; left; reflexivity ..|].
    intros H. apply Hin in H. vm_compute in H. lia.
  - apply Hw'. cbn. intros [[H|[]] _]; discriminate.
Defined.

(** The claim as the specification has it fails for an action that marked
    itself sleeping twice: both marks and the wake-up pass their assertions,
    and after the wake-up the action is still in [sleeping_actions]. *)
Lemma wake_leaves_sleeping :
  let s1 := state_of (_action_sleep_notify actA (loop busy)) in
  let s2 := state_of (_action_sleep_notify actA s1) in
  let s3 := state_of (_action_wake_notify actA s2) in
  _action_sleep_notify actA (loop busy) = Ok tt s1
  /\ _action_sleep_notify actA s1 = Ok tt s2
  /\ _action_wake_notify actA s2 = Ok tt s3
  /\ sleeping_actions s2 = [actA; actA]
  /\ sleeping_actions s3 = [actA]
  /\ In actA (sleeping_actions s3).
Proof.
  vm_compute. repeat split; try reflexivity. left; reflexivity.
Qed.

(** ** De-duplicating admission *)

Lemma first_named_none (n : option string) (js : list Job) :
  first_named n js = None <-> (forall j, In j js -> name j <> n).
Proof.
  unfold first_named; split.
  - intros H j Hj Hn. apply (find_none _ _ H) in Hj.
    apply name_eqb_neq in Hj. contradiction.
  - induction js as [|x xs IH]; cbn; [reflexivity|].
    intros H. destruct (name_eqb_spec (name x) n) as [He|_].
    + exfalso. apply (H x); [now left | assumption].
    + apply IH. intros j Hj. apply H. now right.
Qed.

Lemma first_named_some_ex (n : option string) (js : list Job) :
  (exists j, In j js /\ name j = n) -> exists x, first_named n js = Some x.
Proof.
  intros [j [Hj Hn]]. destruct (first_named n js) eqn:E; [eauto|].
  exfalso. apply (proj1 (first_named_none n js) E j Hj Hn).
Qed.

Lemma first_named_split (n : option string) (pre post : list Job) (ex : Job) :
  (forall j, In j pre -> name j <> n) -> name ex = n ->
  first_named n (pre ++ ex :: post) = Some ex.
Proof.
  intros Hpre Hex. induction pre as [|x xs IH]; cbn.
  - rewrite Hex, name_eqb_refl. reflexivity.
  - destruct (name_eqb_spec (name x) n) as [He|_].
    + exfalso. apply (Hpre x); [now left | assumption].
    + apply IH. intros j Hj. apply Hpre. now right.
Qed.

Lemma remove_job_split (pre post : list Job) (ex : Job) :
  ~ In (jid ex) (map jid pre) ->
  remove_job ex (pre ++ ex :: post) = pre ++ post.
Proof.
  induction pre as [|x xs IH]; cbn; intros Hn.
  - now rewrite Nat.eqb_refl.
  - destruct (Nat.eqb_spec (jid x) (jid ex)) as [He|_].
    + exfalso. apply Hn. now left.
    + f_equal. apply IH. intros H. apply Hn. now right.
Qed.

Lemma all_jobs_none (n : option string) (s : MainLoop) :
  (forall j, In j (all_jobs s) -> name j <> n) ->
  first_named n (force_start s ++ running_jobs s) = None
  /\ first_named n (queue s) = None.
Proof.
  intros H; split; apply first_named_none; intros j Hj; apply H;
    unfold all_jobs; apply in_or_app; [right | left]; assumption.
Qed.

(** C3: [priority_enqueue_or_raise(action, force_start, times)]
    - returns false and leaves the scheduler as it was when a job of the same
      name is in [force_start] or [running_jobs];
    - otherwise, when the first job of that name in [queue] is [ex], takes
      [ex] out of the queue, builds the new job from [ex]'s action, puts it at
      the tail of [force_start] or the head of [queue] as the flag says, and
      returns false;
    - otherwise (no job of that name anywhere) builds the job from the
      caller's action, places it the same way and returns true;
    and it returns true in no other case. *)
Theorem priority_enqueue_or_raise_spec
  (a : Action) (force : bool) (t : Z) (s : MainLoop) :
  ((exists j, In j (force_start s ++ running_jobs s) /\ name j = aname a) ->
     priority_enqueue_or_raise a force t s = Ok false s)
  /\ ((forall j, In j (force_start s ++ running_jobs s) -> name j <> aname a) ->
      forall pre ex post,
        queue s = pre ++ ex :: post ->
        (forall j, In j pre -> name j <> aname a) ->
        name ex = aname a ->
        ~ In (jid ex) (map jid pre) ->
        priority_enqueue_or_raise a force t s
        = Ok false
             (placed force (created_job s (action ex) t)
                (set_next_jid (S (next_jid s)) (set_queue (pre ++ post) s))))
  /\ ((forall j, In j (all_jobs s) -> name j <> aname a) ->
      priority_enqueue_or_raise a force t s
      = Ok true
           (placed force (created_job s a t)
              (set_next_jid (S (next_jid s)) s)))
  /\ (forall s', priority_enqueue_or_raise a force t s = Ok true s' ->
      forall j, In j (all_jobs s) -> name j <> aname a).
Proof.
  repeat split.
  - intros Hex. apply first_named_some_ex in Hex as [x Hx].
    unfold priority_enqueue_or_raise; run_monad. now rewrite Hx.
  - intros Hfr pre ex post Hq Hpre Hname Hid.
    apply first_named_none in Hfr.
    unfold priority_enqueue_or_raise; run_monad. rewrite Hfr.
    rewrite Hq, (@first_named_split (aname a) pre post ex Hpre Hname).
    unfold _create_job, new_Job; run_monad.
    rewrite Hq, (@remove_job_split pre post ex Hid).
    destruct force; reflexivity.
  - intros Hall. apply all_jobs_none in Hall as [Hfr Hq].
    unfold priority_enqueue_or_raise; run_monad. rewrite Hfr, Hq.
    unfold _create_job, new_Job; run_monad.
    destruct force; reflexivity.
  - intros s' Hrun j Hj.
    unfold priority_enqueue_or_raise in Hrun; revert Hrun; run_monad.
    destruct (first_named (aname a) (force_start s ++ running_jobs s)) eqn:Hfr;
      [discriminate|].
    destruct (first_named (aname a) (queue s)) eqn:Hq.
    + unfold _create_job, new_Job; run_monad. destruct force; discriminate.
    + intros _.
      unfold all_jobs in Hj. apply in_app_or in Hj as [Hj|Hj].
      * exact (proj1 (first_named_none _ _) Hq j Hj).
      * exact (proj1 (first_named_none _ _) Hfr j Hj).
Qed.

Lemma priority_enqueue_or_raise_witness :
  priority_enqueue_or_raise actA' true 1 (loop asleep) = Ok false (loop asleep)
  /\ priority_enqueue_or_raise actB' true 3 (loop asleep)
     = Ok false
          (placed true (created_job (loop asleep) actB 3)
             (set_next_jid 3 (set_queue [] (loop asleep))))
  /\ priority_enqueue_or_raise actC false 1 (loop asleep)
     = Ok true
          (placed false (created_job (loop asleep) actC 1)
             (set_next_jid 3 (loop asleep)))
  /\ (forall j, In j (all_jobs (loop asleep)) -> name j <> Some "C").
Proof.
  assert (HC : forall j, In j (all_jobs (loop asleep)) -> name j <> aname actC).
  { cbn. intros j [<-|[<-|[]]]; discriminate. }
  split; [|split; [|split]].
  - apply (proj1 (priority_enqueue_or_raise_spec actA' true 1 (loop asleep))).
    eexists; split; [cbn; left; reflexivity | reflexivity].
  - destruct (priority_enqueue_or_raise_spec actB' true 3 (loop asleep))
      as (_ & Hq & _).
    refine (Hq _ [] _ [] eq_refl _ eq_refl _).
    + cbn. intros j [<-|[]]; discriminate.
    + intros j [].
    + intros [].
  - destruct (priority_enqueue_or_raise_spec actC false 1 (loop asleep))
      as (_ & _ & Hnew & _).
    apply Hnew, HC.
  - destruct (priority_enqueue_or_raise_spec actC false 1 (loop asleep))
      as (_ & _ & Hnew & Honly).
    exact (Honly _ (Hnew HC)).
Defined.

Lemma named_count_zero (n : option string) (s : MainLoop) :
  first_named n (all_jobs s) = None -> named_count n s = 0%nat.
Proof.
  unfold named_count, first_named.
  induction (all_jobs s) as [|x xs IH]; cbn; [reflexivity|].
  destruct (name_eqb (name x) n); [discriminate | exact IH].
Qed.

Lemma named_count_pos (n : option string) (s : MainLoop) (j : Job) :
  first_named n (all_jobs s) = Some j -> (1 <= named_count n s)%nat.
Proof.
  unfold named_count, first_named.
  induction (all_jobs s) as [|x xs IH]; cbn; [discriminate|].
  destruct (name_eqb (name x) n); cbn; [lia | exact IH].
Qed.

Lemma enqueue_or_ignore_count (a : Action) (t : Z) (s : MainLoop) :
  aname a <> None ->
  (named_count (aname a) s <= 1)%nat ->
  named_count (aname a) (state_of (enqueue_or_ignore a t s)) = 1%nat.
Proof.
  intros Hnamed Hle. unfold enqueue_or_ignore; run_monad.
  unfold get_first_job_from_name.
  destruct (aname a) as [n|] eqn:Hn; [clear Hnamed | congruence].
  destruct (first_named (Some n) (all_jobs s)) as [j|] eqn:E; cbn.
  - apply named_count_pos in E. lia.
  - unfold _create_job, new_Job; run_monad.
    pose proof (named_count_zero _ _ E) as Hz.
    unfold named_count, all_jobs in *; cbn.
    rewrite !filter_app, !length_app in *; cbn.
    rewrite String.eqb_refl; cbn. lia.
Qed.

Lemma enqueue_or_ignore_nameless (a : Action) (t : Z) (s : MainLoop) :
  aname a = None ->
  enqueue_or_ignore a t s
  = Ok true (set_queue (queue s ++ [created_job s a t])
                       (set_next_jid (S (next_jid s)) s)).
Proof.
  intros Hn. unfold enqueue_or_ignore; run_monad. rewrite Hn. cbn.
  unfold _create_job, new_Job; run_monad. unfold created_job.
  rewrite Hn. reflexivity.
Qed.

(** The two ways a call of [enqueue_or_ignore] ends. *)
Lemma enqueue_or_ignore_cases (a : Action) (t : Z) (s : MainLoop) :
  enqueue_or_ignore a t s = Ok false s
  \/ enqueue_or_ignore a t s
     = Ok true (set_queue (queue s ++ [created_job s a t])
                          (set_next_jid (S (next_jid s)) s)).
Proof.
  unfold enqueue_or_ignore; run_monad.
  destruct (get_first_job_from_name (aname a) s); [now left | right].
  unfold _create_job, new_Job; run_monad. reflexivity.
Qed.

(** C4, as the code has it: [enqueue_or_ignore(action, times)] appends a new
    job for the action to the tail of [queue] and returns true when no job in
    [queue], [force_start] or [running_jobs] has the action's name.  For an
    action whose name is not [None] it returns false and changes nothing when
    one has; hence, from a state with at most one job of that name, any
    non-empty series of calls with actions of that name leaves exactly one
    job of that name.  An action whose name is [None] is appended, and true
    returned, whatever jobs there are. *)
Theorem enqueue_or_ignore_spec (a : Action) (t : Z) (s : MainLoop) :
  ((forall j, In j (all_jobs s) -> name j <> aname a) ->
     enqueue_or_ignore a t s
     = Ok true (set_queue (queue s ++ [created_job s a t])
                          (set_next_jid (S (next_jid s)) s)))
  /\ (aname a <> None ->
      (exists j, In j (all_jobs s) /\ name j = aname a) ->
      enqueue_or_ignore a t s = Ok false s)
  /\ (aname a <> None ->
      forall calls : list (Action * Z),
       (forall c, In c calls -> aname (fst c) = aname a) ->
       (named_count (aname a) s <= 1)%nat ->
       named_count (aname a)
         (enqueue_or_ignore_each calls (state_of (enqueue_or_ignore a t s)))
       = 1%nat)
  /\ (aname a = None ->
      enqueue_or_ignore a t s
      = Ok true (set_queue (queue s ++ [created_job s a t])
                           (set_next_jid (S (next_jid s)) s))).
Proof.
  split; [|split; [|split]].
  - intros Hall. destruct (aname a) as [n|] eqn:Hn.
    + rewrite <- Hn in Hall. apply first_named_none in Hall.
      unfold enqueue_or_ignore; run_monad.
      unfold get_first_job_from_name. rewrite Hn, <- Hn, Hall.
      unfold _create_job, new_Job; run_monad. reflexivity.
    + now apply enqueue_or_ignore_nameless.
  - intros Hnamed Hex. apply first_named_some_ex in Hex as [x Hx].
    unfold enqueue_or_ignore; run_monad. unfold get_first_job_from_name.
    destruct (aname a) as [n|]; [now rewrite Hx | congruence].
  - intros Hnamed calls Hnames Hle.
    pose proof (enqueue_or_ignore_count a t s Hnamed Hle) as H1.
    revert H1. generalize (state_of (enqueue_or_ignore a t s)).
    induction calls as [|[b u] rest IH]; intros s1 H1; cbn; [exact H1|].
    apply IH.
    + intros c Hc. apply Hnames. now right.
    + assert (Hb : aname b = aname a) by (apply (Hnames (b, u)); now left).
      rewrite <- Hb. apply enqueue_or_ignore_count; rewrite Hb.
      * exact Hnamed.
      * rewrite H1. lia.
  - apply enqueue_or_ignore_nameless.
Qed.

Lemma enqueue_or_ignore_witness :
  enqueue_or_ignore actC 1 (loop asleep)
  = Ok true (set_queue (queue (loop asleep) ++ [created_job (loop asleep) actC 1])
                       (set_next_jid 3 (loop asleep)))
  /\ enqueue_or_ignore actA' 1 (loop asleep) = Ok false (loop asleep)
  /\ named_count (Some "A")
       (enqueue_or_ignore_each [(actA, 2); (actA', 1)]
          (state_of (enqueue_or_ignore actA' 1 (loop asleep)))) = 1%nat
  /\ enqueue_or_ignore anon' 1 (loop nameless_queued)
     = Ok true (set_queue (queue (loop nameless_queued)
                           ++ [created_job (loop nameless_queued) anon' 1])
                          (set_next_jid 4 (loop nameless_queued))).
Proof.
  split; [|split; [|split]].
  - apply (proj1 (enqueue_or_ignore_spec actC 1 (loop asleep))).
    cbn. intros j [<-|[<-|[]]]; discriminate.
  - destruct (enqueue_or_ignore_spec actA' 1 (loop asleep)) as (_ & Hdup & _).
    apply Hdup; [discriminate|].
    eexists; split; [cbn; right; left; reflexivity | reflexivity].
  - destruct (enqueue_or_ignore_spec actA' 1 (loop asleep))
      as (_ & _ & Hcnt & _).
    apply (Hcnt ltac:(discriminate) [(actA, 2); (actA', 1)]).
    + cbn. intros c [<-|[<-|[]]]; reflexivity.
    + vm_compute. lia.
  - destruct (enqueue_or_ignore_spec anon' 1 (loop nameless_queued))
      as (_ & _ & _ & Hnone).
    apply Hnone. reflexivity.
Defined.

(** The claim as the specification has it fails for an action without a
    name: a job with the same name ([None]) waits in the queue, and yet
    [enqueue_or_ignore] appends another one and returns true, so that two
    jobs carry that name. *)
Lemma nameless_never_ignored :
  (exists j, In j (all_jobs (loop nameless_queued)) /\ name j = aname anon')
  /\ (exists s', enqueue_or_ignore anon' 1 (loop nameless_queued) = Ok true s'
                 /\ map name (queue s') = [Some "B"; None; None]
                 /\ named_count (aname anon') s' = 2%nat).
Proof.
  split.
  - eexists; split; [cbn; right; left; reflexivity | reflexivity].
  - eexists; split; [reflexivity|]. split; reflexivity.
Qed.

(** ** Blocking waits *)

Section WaitWhile.
Variable cond : MainLoop -> bool.

Lemma wait_while_blocked (ws : list MainLoop) : forall s,
  wait_while cond s ws = None <-> Forall (fun x => cond x = true) (s :: ws).
Proof.
  induction ws as [|w ws IH]; intros s; cbn.
  - destruct (cond s) eqn:E; split; intros H;
      try discriminate; try reflexivity.
    + constructor; [assumption | constructor].
    + inversion H; congruence.
  - destruct (cond s) eqn:E.
    + rewrite IH. split; intros H.
      * constructor; assumption.
      * now inversion H.
    + split; intros H; [discriminate | inversion H; congruence].
Qed.

Lemma wait_while_returns (ws : list MainLoop) : forall s s' rest,
  wait_while cond s ws = Some (s', rest) <->
  exists pre, s :: ws = pre ++ s' :: rest
              /\ Forall (fun x => cond x = true) pre /\ cond s' = false.
Proof.
  induction ws as [|w ws IH]; intros s s' rest; cbn.
  - destruct (cond s) eqn:E; split.
    + discriminate.
    + intros (pre & Heq & Hpre & Hs').
      destruct pre as [|p pre]; cbn in Heq.
      * injection Heq as -> _. congruence.
      * injection Heq as _ Heq. destruct pre; discriminate.
    + intros [= <- <-]. exists []; repeat split; [constructor | assumption].
    + intros (pre & Heq & Hpre & Hs').
      destruct pre as [|p pre]; cbn in Heq.
      * now injection Heq as <- <-.
      * injection Heq as _ Heq. destruct pre; discriminate.
  - destruct (cond s) eqn:E; split.
    + intros H. apply IH in H as (pre & Heq & Hpre & Hs').
      exists (s :: pre); cbn; rewrite Heq; repeat split;
        [constructor|]; assumption.
    + intros (pre & Heq & Hpre & Hs').
      destruct pre as [|p pre]; cbn in Heq.
      * injection Heq as -> _. congruence.
      * injection Heq as -> Heq. apply IH. exists pre; repeat split;
          [assumption | now inversion Hpre | assumption].
    + intros [= <- <-]. exists []; repeat split; [constructor | assumption].
    + intros (pre & Heq & Hpre & Hs').
      destruct pre as [|p pre]; cbn in Heq.
      * now injection Heq as <- <-.
      * injection Heq as -> _. inversion Hpre; congruence.
Qed.
End WaitWhile.

Lemma in_queue_In (a : Action) (s : MainLoop) :
  in_queue a s = true <-> In a (map action (all_jobs s)).
Proof. apply action_in_In. Qed.

Lemma in_queue_not_In (a : Action) (s : MainLoop) :
  in_queue a s = false <-> ~ In a (map action (all_jobs s)).
Proof.
  rewrite <- in_queue_In. destruct (in_queue a s); split; congruence.
Qed.

Lemma find_nowhere {A} (f : A -> bool) (l : list A) :
  (forall x, In x l -> f x = false) -> find f l = None.
Proof.
  induction l as [|y ys IH]; cbn; intros H; [reflexivity|].
  rewrite (H y (or_introl eq_refl)). apply IH. intros x Hx. apply H. now right.
Qed.

Lemma Forall_iff {A} (P Q : A -> Prop) (l : list A) :
  (forall x, P x <-> Q x) -> Forall P l <-> Forall Q l.
Proof.
  intros H; split; intros F; eapply Forall_impl; try exact F;
    intros x; apply H.
Qed.

(** C7: [wait_for(x)] given a hash that no job's action in [queue],
    [force_start] or [running_jobs] has returns at once; given a hash that
    the action of [j] is the first to have, it does what it does for
    [j.action]; and given an Action it returns at the first of the states it
    sees (the one at entry, then one per wake-up) in which no job in [queue],
    [force_start] or [running_jobs] holds the Action, having seen the Action
    in every earlier one, and stays blocked as long as every state holds it. *)
Theorem wait_for_spec (s : MainLoop) (wakeups : list MainLoop) :
  (forall h, (forall j, In j (all_jobs s) -> ahash (action j) <> h) ->
     wait_for (a_hash h) s wakeups = Some (s, wakeups))
  /\ (forall h pre j post,
       all_jobs s = pre ++ j :: post ->
       (forall x, In x pre -> ahash (action x) <> h) ->
       ahash (action j) = h ->
       wait_for (a_hash h) s wakeups = wait_for (an_action (action j)) s wakeups)
  /\ (forall a s' rest,
       wait_for (an_action a) s wakeups = Some (s', rest) <->
       exists seen, s :: wakeups = seen ++ s' :: rest
                    /\ Forall (fun x => In a (map action (all_jobs x))) seen
                    /\ ~ In a (map action (all_jobs s')))
  /\ (forall a,
       wait_for (an_action a) s wakeups = None <->
       Forall (fun x => In a (map action (all_jobs x))) (s :: wakeups)).
Proof.
  split; [|split; [|split]].
  - intros h Hnone. cbn. unfold _get_action_from_hash.
    rewrite find_nowhere; [reflexivity|].
    intros j Hj. apply Z.eqb_neq. now apply Hnone.
  - intros h pre j post Hall Hpre Hj. cbn. unfold _get_action_from_hash.
    rewrite Hall.
    assert (Hfind : find (fun x => ahash (action x) =? h) (pre ++ j :: post)
                    = Some j).
    { clear Hall. induction pre as [|p pre IH]; cbn.
      - now rewrite Hj, Z.eqb_refl.
      - rewrite (proj2 (Z.eqb_neq _ _) (Hpre p (or_introl eq_refl))).
        apply IH. intros x Hx. apply Hpre. now right. }
    now rewrite Hfind.
  - intros a s' rest. cbn. rewrite wait_while_returns.
    split; intros (seen & Heq & Hseen & Hs'); exists seen; repeat split;
      try assumption.
    + eapply Forall_impl; [|exact Hseen]. intros x; apply in_queue_In.
    + now apply in_queue_not_In.
    + eapply Forall_impl; [|exact Hseen]. intros x; apply in_queue_In.
    + now apply in_queue_not_In.
  - intros a. cbn. rewrite wait_while_blocked.
    apply Forall_iff. intros x; apply in_queue_In.
Qed.

Lemma wait_for_witness :
  wait_for (a_hash 999) (loop asleep) asleep_later
    = Some (loop asleep, asleep_later)
  /\ wait_for (a_hash 102) (loop asleep) asleep_later
     = wait_for (an_action actB) (loop asleep) asleep_later
  /\ wait_for (an_action actA) (loop asleep) asleep_later
     = Some (nth 1 asleep_later init, []).
Proof.
  destruct (wait_for_spec (loop asleep) asleep_later) as (Hno & Hyes & Hret & _).
  split; [|split].
  - apply Hno. cbn. intros j [<-|[<-|[]]]; discriminate.
  - apply (Hyes 102 [] (nth 0 (queue (loop asleep)) (created_job init actB 1))
                 (running_jobs (loop asleep))).
    + reflexivity.
    + intros x [].
    + reflexivity.
  - apply Hret. exists [loop asleep; nth 0 asleep_later init].
    split; [vm_compute; reflexivity | split].
    + constructor; [cbn; right; left; reflexivity|].
      constructor; [cbn; right; left; reflexivity | constructor].
    + cbn. intros [H|[]]; discriminate.
Defined.

(** ** The coordinator's pass, step by step *)

Lemma MainLoop_ext (s s' : MainLoop) :
  queue s = queue s' -> force_start s = force_start s' ->
  running_jobs s = running_jobs s' ->
  sleeping_actions s = sleeping_actions s' ->
  paused s = paused s' -> shutdown_now s = shutdown_now s' ->
  max_threads s = max_threads s' -> next_jid s = next_jid s' ->
  fired s = fired s' -> s = s'.
Proof. destruct s, s'; cbn; intros; subst; reflexivity. Qed.

Lemma fire_all_fields (es : list Event) : forall s,
  queue (fire_all es s) = queue s
  /\ force_start (fire_all es s) = force_start s
  /\ running_jobs (fire_all es s) = running_jobs s
  /\ sleeping_actions (fire_all es s) = sleeping_actions s
  /\ paused (fire_all es s) = paused s
  /\ shutdown_now (fire_all es s) = shutdown_now s
  /\ max_threads (fire_all es s) = max_threads s
  /\ next_jid (fire_all es s) = next_jid s
  /\ fired (fire_all es s) = fired s ++ es.
Proof.
  induction es as [|e es IH]; intros s; cbn.
  - rewrite app_nil_r. repeat split.
  - destruct (IH (fire e s)) as (H1 & H2 & H3 & H4 & H5 & H6 & H7 & H8 & H9).
    cbn in *. rewrite <- app_assoc in H9. repeat split; assumption.
Qed.

Lemma queue_fire_all es s : queue (fire_all es s) = queue s.
Proof. apply fire_all_fields. Qed.
Lemma force_start_fire_all es s : force_start (fire_all es s) = force_start s.
Proof. apply fire_all_fields. Qed.
Lemma running_jobs_fire_all es s :
  running_jobs (fire_all es s) = running_jobs s.
Proof. apply fire_all_fields. Qed.
Lemma sleeping_actions_fire_all es s :
  sleeping_actions (fire_all es s) = sleeping_actions s.
Proof. apply fire_all_fields. Qed.
Lemma paused_fire_all es s : paused (fire_all es s) = paused s.
Proof. apply fire_all_fields. Qed.
Lemma shutdown_now_fire_all es s :
  shutdown_now (fire_all es s) = shutdown_now s.
Proof. apply fire_all_fields. Qed.
Lemma max_threads_fire_all es s : max_threads (fire_all es s) = max_threads s.
Proof. apply fire_all_fields. Qed.
Lemma next_jid_fire_all es s : next_jid (fire_all es s) = next_jid s.
Proof. apply fire_all_fields. Qed.
Lemma fired_fire_all es s : fired (fire_all es s) = fired s ++ es.
Proof. apply fire_all_fields. Qed.

Create Rewrite HintDb fields.
#[local] Hint Rewrite queue_fire_all force_start_fire_all running_jobs_fire_all
  sleeping_actions_fire_all paused_fire_all shutdown_now_fire_all
  max_threads_fire_all next_jid_fire_all fired_fire_all : fields.

Ltac fields := repeat (progress (cbn; autorewrite with fields)).

Ltac state_eq :=
  apply MainLoop_ext; fields; rewrite <- ?app_assoc; try reflexivity.

(** The module binds no global [copy], and Python 2 has no such builtin. *)
Lemma copy_unbound : global_bound "copy" = false.
Proof. vm_compute. reflexivity. Qed.

Lemma restart_job_raises (job : Job) (s : MainLoop) :
  _restart_job job s = Raise (NameError "copy") s.
Proof.
  unfold _restart_job, load_global, bind. rewrite copy_unbound. reflexivity.
Qed.

Lemma on_job_completed_cases (job : Job) (s : MainLoop) :
  _on_job_completed job s =
  match exc_info job with
  | None => Ok tt (fire (job_succeeded_event (action job)) s)
  | Some info =>
      if failures job >=? times job
      then Ok tt (fire (job_aborted_event (action job))
                       (fire (job_error_event (action job) info) s))
      else Raise (NameError "copy") (fire (job_error_event (action job) info) s)
  end.
Proof.
  unfold _on_job_completed. destruct (exc_info job) as [info|]; [|reflexivity].
  unfold bind, modify. destruct (failures job >=? times job); [reflexivity|].
  apply restart_job_raises.
Qed.

Lemma completed_each (jobs : list Job) : forall s,
  exists es,
    for_each jobs _on_job_completed s = Ok tt (fire_all es s)
    \/ for_each jobs _on_job_completed s = Raise (NameError "copy") (fire_all es s).
Proof.
  induction jobs as [|j jobs IH]; intros s; cbn.
  - exists []. now left.
  - unfold bind. rewrite on_job_completed_cases.
    destruct (exc_info j) as [info|].
    + destruct (failures j >=? times j).
      * destruct (IH (fire (job_aborted_event (action j))
                        (fire (job_error_event (action j) info) s)))
          as [es [H|H]];
          exists (job_error_event (action j) info
                  :: job_aborted_event (action j) :: es);
          rewrite H; [left | right]; reflexivity.
      * exists [job_error_event (action j) info]. right. reflexivity.
    + destruct (IH (fire (job_succeeded_event (action j)) s)) as [es [H|H]];
        exists (job_succeeded_event (action j) :: es);
        rewrite H; [left | right]; reflexivity.
Qed.

Lemma update_running_jobs_cases (s : MainLoop) :
  exists es,
    _update_running_jobs s
    = Ok tt (fire_all es (set_running_jobs (filter alive (running_jobs s)) s))
    \/ _update_running_jobs s
       = Raise (NameError "copy")
               (fire_all es (set_running_jobs (filter alive (running_jobs s)) s)).
Proof.
  unfold _update_running_jobs; run_monad.
  apply completed_each.
Qed.

Lemma signal_if_empty_cases (s : MainLoop) :
  exists es, signal_if_empty s = Ok tt (fire_all es s).
Proof.
  unfold signal_if_empty; run_monad.
  destruct (get_queue_length s =? 0);
    [exists [queue_empty_event] | exists []]; reflexivity.
Qed.

Lemma start_each (jobs : list Job) : forall s,
  for_each jobs _start_job s
  = Ok tt (fire_all (map (fun j => job_started_event (action j)) jobs)
             (set_running_jobs (running_jobs s ++ map started jobs) s)).
Proof.
  induction jobs as [|j jobs IH]; intros s; cbn.
  - unfold ret. f_equal. state_eq; now rewrite app_nil_r.
  - rewrite IH.
    f_equal. state_eq.
Qed.

Lemma start_forced_eq (s : MainLoop) :
  start_forced s
  = Ok tt (fire_all (map (fun j => job_started_event (action j)) (force_start s))
             (set_force_start []
                (set_running_jobs
                   (running_jobs s ++ map started (force_start s)) s))).
Proof.
  unfold start_forced; run_monad. rewrite start_each. f_equal. state_eq.
Qed.

Lemma admit_next_cases (s : MainLoop) :
  (admit_next s = Ok waits s
   /\ (queue s = [] \/ paused s = true \/ max_threads s <= active s))
  \/ (exists job rest,
        queue s = job :: rest /\ paused s = false /\ active s < max_threads s
        /\ admit_next s
           = Ok (admitted job)
                (fire (job_started_event (action job))
                   (set_running_jobs (running_jobs s ++ [started job])
                      (set_queue rest s)))).
Proof.
  unfold admit_next; run_monad.
  destruct (queue s) as [|job rest] eqn:Hq; cbn.
  - left. split; [reflexivity | now left].
  - destruct (paused s) eqn:Hp; cbn.
    + left. replace (Z.pos (Pos.of_succ_nat (List.length rest)) <=? 0)
        with false by (symmetry; apply Z.leb_gt; lia).
      cbn. split; [reflexivity | right; now left].
    + replace (Z.pos (Pos.of_succ_nat (List.length rest)) <=? 0)
        with false by (symmetry; apply Z.leb_gt; lia).
      cbn. destruct (active s >=? max_threads s) eqn:Hg.
      * left. split; [reflexivity|]. right; right. lia.
      * right. exists job, rest.
        split; [reflexivity | split; [reflexivity | split; [lia|]]].
        unfold _start_job; run_monad. reflexivity.
Qed.

(** One pass of the coordinator ends in one of three ways: it dies in the
    reaping step, of the unbound [copy]; it waits at a gate; or it admits the
    head of the queue. *)
Lemma run_pass_cases (s : MainLoop) :
  exists es,
    run_pass s = Raise (NameError "copy")
                       (fire_all es (set_running_jobs (kept s) s))
    \/ (run_pass s
        = Ok waits (fire_all es (set_force_start []
                                   (set_running_jobs (kept_and_forced s) s)))
        /\ (queue s = [] \/ paused s = true \/ max_threads s <= gate_count s))
    \/ (exists job rest,
          queue s = job :: rest /\ paused s = false
          /\ gate_count s < max_threads s
          /\ run_pass s
             = Ok (admitted job)
                  (fire_all es
                     (set_queue rest
                        (set_force_start []
                           (set_running_jobs
                              (kept_and_forced s ++ [started job]) s))))).
Proof.
  destruct (update_running_jobs_cases s) as [es1 [H1|H1]].
  2:{ exists es1. left. unfold run_pass, bind. now rewrite H1. }
  set (s1 := fire_all es1 (set_running_jobs (filter alive (running_jobs s)) s))
    in *.
  destruct (signal_if_empty_cases s1) as [es2 H2].
  set (s2 := fire_all es2 s1) in *.
  pose proof (start_forced_eq s2) as H3.
  set (es3 := map (fun j => job_started_event (action j)) (force_start s2)) in *.
  set (s3 := fire_all es3 _) in *.
  assert (Hq : queue s3 = queue s) by (subst s3 s2 s1; fields; reflexivity).
  assert (Hp : paused s3 = paused s) by (subst s3 s2 s1; fields; reflexivity).
  assert (Hm : max_threads s3 = max_threads s)
    by (subst s3 s2 s1; fields; reflexivity).
  assert (Hr : running_jobs s3 = kept_and_forced s)
    by (subst s3 s2 s1; fields; reflexivity).
  assert (Ha : active s3 = gate_count s).
  { unfold active, gate_count. rewrite Hr. subst s3 s2 s1; fields. reflexivity. }
  destruct (admit_next_cases s3) as [[Hw Hwhy]|(job & rest & Hj & Hnp & Hlt & Had)].
  - exists (es1 ++ es2 ++ es3). right.
    left. rewrite Hq, Hp, Hm, Ha in Hwhy. split; [|exact Hwhy].
    unfold run_pass, bind. rewrite H1, H2, H3, Hw.
    f_equal. subst s3 s2 s1 es3. state_eq.
  - exists (es1 ++ es2 ++ es3 ++ [job_started_event (action job)]). right.
    right. exists job, rest. rewrite Hq in Hj. rewrite Hp in Hnp.
    rewrite Hm, Ha in Hlt.
    split; [assumption | split; [assumption | split; [assumption|]]].
    unfold run_pass, bind. rewrite H1, H2, H3, Had.
    f_equal. rewrite Hr. subst s3 s2 s1 es3. state_eq.
Qed.

(** ** Two runs of the scheduler *)

(** Three actions enqueued with a limit of one, each succeeding: the signals
    come in the order started, succeeded, one action after the other. *)
Example one_at_a_time :
  fired (loop (exec_all
                 [call_resume; call_enqueue actA 1; call_enqueue actB 1;
                  call_enqueue actC 1; coordinator_runs;
                  thread_ends 0 None; coordinator_runs;
                  thread_ends 1 None; coordinator_runs;
                  thread_ends 2 None; coordinator_runs] boot))
  = [job_started_event actA; job_succeeded_event actA;
     job_started_event actB; job_succeeded_event actB;
     job_started_event actC; job_succeeded_event actC; queue_empty_event].
Proof. vm_compute. reflexivity. Qed.

(** A force-started action runs beside A although the limit is one, and B
    stays in the queue. *)
Example forced_beside_running :
  map name (running_jobs (loop (exec_all [call_priority_enqueue actC true 1;
                                          coordinator_runs] busy)))
  = [Some "A"; Some "C"]
  /\ map name (queue (loop (exec_all [call_priority_enqueue actC true 1;
                                      coordinator_runs] busy))) = [Some "B"].
Proof. vm_compute. split; reflexivity. Qed.

(** ** Retry after a failure *)

(** The whole run of an action with two attempts that fails: it is started
    once, job-error fires once, and the coordinator dies of the NameError;
    there is no second attempt and no job-aborted. *)
Example failing_run_dies :
  exec_all failing_run boot
  = {| loop := {| queue := []; force_start := []; running_jobs := [];
                  sleeping_actions := []; paused := false;
                  shutdown_now := false; max_threads := 1; next_jid := 1%nat;
                  fired := [job_started_event actA;
                            job_error_event actA "boom"] |};
       coordinator := died (NameError "copy") |}.
Proof. vm_compute. reflexivity. Qed.

(** C1 (what the code does): when a job has ended in failure with
    [failures < times], [_on_job_completed] fires job-error and then raises
    NameError, because [_restart_job] calls a global [copy] that the module
    never imports; no copy of the job is made, nothing is added to
    [running_jobs] and job-started is not fired.  With [failures >= times]
    it fires job-error and job-aborted and returns. *)
Theorem on_job_completed_failure (job : Job) (info : string) (s : MainLoop) :
  exc_info job = Some info ->
  (failures job < times job ->
     _on_job_completed job s
     = Raise (NameError "copy") (fire (job_error_event (action job) info) s)
     /\ running_jobs (state_of (_on_job_completed job s)) = running_jobs s
     /\ fired (state_of (_on_job_completed job s))
        = fired s ++ [job_error_event (action job) info])
  /\ (times job <= failures job ->
     _on_job_completed job s
     = Ok tt (fire (job_aborted_event (action job))
                   (fire (job_error_event (action job) info) s))).
Proof.
  intros Hexc. rewrite on_job_completed_cases, Hexc, Z.geb_leb.
  split; intros Hcmp.
  - rewrite (proj2 (Z.leb_gt _ _) Hcmp). repeat split.
  - rewrite (proj2 (Z.leb_le _ _) Hcmp). reflexivity.
Qed.

Lemma on_job_completed_failure_witness :
  _on_job_completed failed_once init
  = Raise (NameError "copy") (fire (job_error_event actA "boom") init).
Proof.
  apply (proj1 (on_job_completed_failure failed_once init eq_refl)).
  reflexivity.
Defined.

(** ** The concurrency limit *)

Lemma kept_length (s : MainLoop) :
  (List.length (kept s) <= List.length (running_jobs s))%nat.
Proof. apply filter_length_le. Qed.

Lemma within_limit_pass (n : Z) (s : MainLoop) :
  within_limit n s -> within_limit n (state_of (run_pass s)).
Proof.
  intros (Hf & Hm & Ha). pose proof (kept_length s) as Hk.
  assert (Hkf : kept_and_forced s = kept s)
    by (unfold kept_and_forced; rewrite Hf; apply app_nil_r).
  unfold within_limit, active in *.
  destruct (run_pass_cases s)
    as [es [H|[[H _]|(job & rest & _ & _ & Hlt & H)]]]; rewrite H; cbn.
  - autorewrite with fields; cbn. repeat split; try assumption. lia.
  - autorewrite with fields; cbn. rewrite Hkf.
    repeat split; try assumption. lia.
  - autorewrite with fields; cbn. unfold gate_count in Hlt.
    rewrite List.length_app; cbn.
    repeat split; try assumption. lia.
Qed.

Lemma within_limit_step (n : Z) (op : Op) (sys : System) :
  enqueue_only_step op = true ->
  within_limit n (loop sys) -> within_limit n (loop (exec op sys)).
Proof.
  intros Hop Hin. destruct op; try discriminate; cbn [exec];
    try (apply call_cases; [exact Hin|]).
  - (* enqueue *) destruct Hin as (Hf & Hm & Ha). api. repeat split; assumption.
  - (* pause *) exact Hin.
  - (* resume *) exact Hin.
  - (* sleep notify *)
    destruct Hin as (Hf & Hm & Ha). unfold within_limit, active in *. api;
      repeat split; try assumption.
    rewrite List.length_app; cbn. lia.
  - (* shutdown *) exact Hin.
  - (* a thread ends *)
    destruct Hin as (Hf & Hm & Ha). unfold within_limit, active in *; cbn.
    rewrite List.length_map. repeat split; assumption.
  - (* the coordinator *)
    unfold coordinator_step. destruct (coordinator sys); try exact Hin.
    destruct (shutdown_now (loop sys)); [exact Hin|].
    pose proof (within_limit_pass Hin) as Hp.
    destruct (run_pass (loop sys)); exact Hp.
Qed.

Lemma within_limit_run (n : Z) (ops : list Op) : forall sys,
  forallb enqueue_only_step ops = true ->
  within_limit n (loop sys) -> within_limit n (loop (exec_all ops sys)).
Proof.
  induction ops as [|op ops IH]; intros sys Hops Hin; cbn; [exact Hin|].
  cbn in Hops. apply andb_prop in Hops as [Hop Hops].
  apply IH; [assumption|]. now apply within_limit_step.
Qed.

(** C2 (as stated, refuted): with the limit at 1 and jobs admitted through
    [enqueue] alone, A sleeps, B is admitted in the freed slot, A wakes up:
    two jobs run and none sleeps, so the active count is 2.  (And a limit
    below zero, which [set_max_threads] takes, is exceeded by an idle
    scheduler.) *)
Lemma wake_exceeds_limit :
  forallb (fun op => match op with
                     | call_priority_enqueue _ _ _
                     | call_priority_enqueue_or_raise _ _ _
                     | call_enqueue_or_ignore _ _
                     | call_set_max_threads _ => false
                     | _ => true
                     end) sleeper_wakes = true
  /\ max_threads (loop (exec_all sleeper_wakes boot)) = 1
  /\ active (loop (exec_all sleeper_wakes boot)) = 2
  /\ ~ active (loop (exec_all sleeper_wakes boot))
       <= max_threads (loop (exec_all sleeper_wakes boot))
  /\ ~ active (loop (exec (call_set_max_threads (PyInt (-1))) boot))
       <= max_threads (loop (exec (call_set_max_threads (PyInt (-1))) boot)).
Proof. vm_compute. repeat split; congruence. Qed.

(** C2 (amended): with a limit [n >= 0] set before the run, after every
    sequence of [enqueue], [pause], [resume], [shutdown] and sleep-notify
    calls, thread ends and coordinator passes (no force-start, no change of
    the limit, no wake-notify), [|running| - |sleeping| <= max_threads].  In
    a pass that finds nothing to force-start, a job is admitted only when the
    count of the jobs still alive minus the sleepers is below [max_threads],
    it is the head of the queue, and it is the only job added to
    [running_jobs]; a pass that waits adds none. *)
Theorem active_within_limit (n : Z) (ops : list Op) :
  0 <= n ->
  forallb enqueue_only_step ops = true ->
  (let sys := exec_all ops (exec (call_set_max_threads (PyInt n)) boot) in
   max_threads (loop sys) = n /\ active (loop sys) <= max_threads (loop sys))
  /\ (forall s job s',
        force_start s = [] -> run_pass s = Ok (admitted job) s' ->
        Z.of_nat (List.length (kept s))
          - Z.of_nat (List.length (sleeping_actions s)) < max_threads s
        /\ queue s = job :: queue s'
        /\ running_jobs s' = kept s ++ [started job])
  /\ (forall s s',
        force_start s = [] -> run_pass s = Ok waits s' ->
        queue s' = queue s /\ running_jobs s' = kept s).
Proof.
  intros Hn Hops. split; [|split].
  - cbn zeta.
    destruct (@within_limit_run n ops (exec (call_set_max_threads (PyInt n)) boot)
                Hops) as (_ & Hm & Ha).
    + cbn. unfold within_limit, active; cbn. repeat split. lia.
    + split; assumption.
  - intros s job s' Hf Hrun.
    assert (Hkf : kept_and_forced s = kept s)
      by (unfold kept_and_forced; rewrite Hf; apply app_nil_r).
    destruct (run_pass_cases s)
      as [es [H|[[H _]|(job' & rest & Hq & _ & Hlt & H)]]];
      rewrite H in Hrun; try discriminate.
    injection Hrun as <- <-. unfold gate_count in Hlt. rewrite Hkf in *.
    autorewrite with fields; cbn. repeat split; assumption.
  - intros s s' Hf Hrun.
    assert (Hkf : kept_and_forced s = kept s)
      by (unfold kept_and_forced; rewrite Hf; apply app_nil_r).
    destruct (run_pass_cases s)
      as [es [H|[[H _]|(job' & rest & Hq & _ & Hlt & H)]]];
      rewrite H in Hrun; try discriminate.
    injection Hrun as <-. rewrite Hkf.
    autorewrite with fields; cbn. split; reflexivity.
Qed.

Lemma active_within_limit_witness :
  (max_threads (loop (exec_all gated_run
                        (exec (call_set_max_threads (PyInt 2)) boot))) = 2
   /\ active (loop (exec_all gated_run
                      (exec (call_set_max_threads (PyInt 2)) boot))) <= 2
   /\ map name (running_jobs
                  (loop (exec_all gated_run
                           (exec (call_set_max_threads (PyInt 2)) boot))))
      = [Some "A"; Some "B"]
   /\ map name (queue
                  (loop (exec_all gated_run
                           (exec (call_set_max_threads (PyInt 2)) boot))))
      = [Some "C"])
  /\ (Z.of_nat (List.length (kept gate_open))
        - Z.of_nat (List.length (sleeping_actions gate_open))
      < max_threads gate_open
      /\ queue gate_open
         = nth 0 (queue gate_open) failed_once
           :: queue (state_of (run_pass gate_open))
      /\ running_jobs (state_of (run_pass gate_open))
         = kept gate_open ++ [started (nth 0 (queue gate_open) failed_once)]
      /\ map name (running_jobs (state_of (run_pass gate_open)))
         = [Some "A"; Some "B"])
  /\ (queue (state_of (run_pass gate_shut)) = queue gate_shut
      /\ running_jobs (state_of (run_pass gate_shut)) = kept gate_shut
      /\ max_threads gate_shut <= active gate_shut
      /\ map name (queue gate_shut) = [Some "C"]).
Proof.
  destruct (@active_within_limit 2 gated_run) as ([Hm Ha] & Hadm & Hwait).
  - lia.
  - vm_compute; reflexivity.
  - split; [|split].
    + split; [exact Hm | split; [rewrite Hm in Ha; exact Ha|]].
      vm_compute. split; reflexivity.
    + destruct (Hadm gate_open (nth 0 (queue gate_open) failed_once)
                  (state_of (run_pass gate_open)))
        as (Hlt & Hq & Hr).
      * vm_compute; reflexivity.
      * vm_compute; reflexivity.
      * split; [exact Hlt | split; [exact Hq | split; [exact Hr|]]].
        vm_compute; reflexivity.
    + destruct (Hwait gate_shut (state_of (run_pass gate_shut)))
        as (Hq & Hr).
      * vm_compute; reflexivity.
      * vm_compute; reflexivity.
      * split; [exact Hq | split; [exact Hr|]].
        vm_compute. split; [discriminate | reflexivity].
Defined.

(** ** The initial pause *)

Lemma paused_pass (s : MainLoop) :
  paused s = true ->
  paused (state_of (run_pass s)) = true
  /\ forall p s', run_pass s = Ok p s' ->
       p = waits /\ queue s' = queue s /\ force_start s' = []
       /\ running_jobs s' = kept s ++ map started (force_start s).
Proof.
  intros Hp.
  destruct (run_pass_cases s)
    as [es [H|[[H _]|(job & rest & _ & Hnp & _)]]]; [| |congruence];
    rewrite H; cbn; autorewrite with fields; cbn; (split; [assumption|]);
    intros p s' [= <- <-]; autorewrite with fields; cbn;
    repeat split; reflexivity.
Qed.

Lemma paused_step (op : Op) (sys : System) :
  not_resume op = true ->
  paused (loop sys) = true -> paused (loop (exec op sys)) = true.
Proof.
  intros Hop Hp. destruct op; try discriminate; cbn [exec loop];
    try assumption; try (apply call_cases; [exact Hp | api; assumption]).
  unfold coordinator_step. destruct (coordinator sys); try exact Hp.
  destruct (shutdown_now (loop sys)); [exact Hp|].
  pose proof (proj1 (paused_pass _ Hp)) as H.
  destruct (run_pass (loop sys)); exact H.
Qed.

Lemma paused_run (ops : list Op) : forall sys,
  forallb not_resume ops = true ->
  paused (loop sys) = true -> paused (loop (exec_all ops sys)) = true.
Proof.
  induction ops as [|op ops IH]; intros sys Hops Hp; cbn; [exact Hp|].
  cbn in Hops. apply andb_prop in Hops as [Hop Hops].
  apply IH; [assumption|]. now apply paused_step.
Qed.

(** C10: a new scheduler has [paused = True] and [max_threads = 1].  As long
    as [resume] has not been called, whatever else has been, the scheduler is
    paused and a pass of the coordinator admits nothing from the queue: it
    ends waiting, with the queue as it was, having started the force-started
    jobs and no other.  So a job that is enqueued and nothing more stays in the
    queue, a job that is force-started runs, and once [resume] is called the
    next pass admits the enqueued job. *)
Theorem starts_paused (ops : list Op) :
  paused init = true /\ max_threads init = 1
  /\ (forallb not_resume ops = true ->
      paused (loop (exec_all ops boot)) = true
      /\ forall p s', run_pass (loop (exec_all ops boot)) = Ok p s' ->
           p = waits
           /\ queue s' = queue (loop (exec_all ops boot))
           /\ force_start s' = []
           /\ running_jobs s'
              = kept (loop (exec_all ops boot))
                ++ map started (force_start (loop (exec_all ops boot))))
  /\ (forall a t,
       exists es,
         run_pass (state_of (enqueue a t init))
         = Ok waits (fire_all es (state_of (enqueue a t init))))
  /\ (forall a t,
       exists es,
         run_pass (state_of (priority_enqueue a true t init))
         = Ok waits
              (fire_all es
                 (set_running_jobs [started (created_job init a t)]
                    (set_next_jid 1 init))))
  /\ (forall a t,
       exists es,
         run_pass (state_of (resume (state_of (enqueue a t init))))
         = Ok (admitted (created_job init a t))
              (fire_all es
                 (set_running_jobs [started (created_job init a t)]
                    (set_paused false (set_next_jid 1 init))))).
Proof.
  split; [reflexivity | split; [reflexivity | split; [|split; [|split]]]].
  - intros Hops.
    assert (Hp : paused (loop (exec_all ops boot)) = true)
      by (apply paused_run; [assumption | reflexivity]).
    split; [exact Hp | exact (proj2 (paused_pass _ Hp))].
  - intros a t. exists []. reflexivity.
  - intros a t. exists [job_started_event a]. reflexivity.
  - intros a t. exists [job_started_event a]. reflexivity.
Qed.

Lemma starts_paused_witness :
  paused (loop (exec_all [call_enqueue actA 1; coordinator_runs;
                          call_set_max_threads (PyInt 4); coordinator_runs]
                         boot)) = true
  /\ queue (loop (exec_all [call_enqueue actA 1; coordinator_runs;
                           call_set_max_threads (PyInt 4); coordinator_runs]
                          boot)) = [created_job init actA 1].
Proof.
  destruct (starts_paused [call_enqueue actA 1; coordinator_runs;
                           call_set_max_threads (PyInt 4); coordinator_runs])
    as (_ & _ & Hrun & _).
  destruct (Hrun eq_refl) as [Hp _].
  split; [exact Hp | reflexivity].
Defined.

(** ** Shutdown *)

Lemma first_named_remove_length (n : option string) (q : list Job) (ex : Job) :
  first_named n q = Some ex ->
  S (List.length (remove_job ex q)) = List.length q.
Proof.
  induction q as [|x q IH]; cbn; [discriminate|].
  destruct (name_eqb (name x) n).
  - intros [= ->]. now rewrite Nat.eqb_refl.
  - intros H. destruct (Nat.eqb (jid x) (jid ex)); [reflexivity|].
    cbn. f_equal. now apply IH.
Qed.

Lemma thread_alive_ended (j : Job) (k : nat) (outcome : option string)
  (s : MainLoop) :
  thread_alive j (end_thread k outcome s) = true -> thread_alive j s = true.
Proof.
  unfold thread_alive, end_thread; cbn.
  rewrite !existsb_exists. intros [x [Hx Hc]].
  apply in_map_iff in Hx as [y [<- Hy]].
  exists y; split; [assumption|].
  destruct (Nat.eqb (jid y) k && alive y) eqn:E; [|assumption].
  destruct outcome; cbn in Hc; rewrite andb_false_r in Hc; discriminate.
Qed.

Lemma jid_ended (k : nat) (outcome : option string) (s : MainLoop) :
  map jid (running_jobs (end_thread k outcome s)) = map jid (running_jobs s).
Proof.
  unfold end_thread; cbn. rewrite map_map. apply map_ext.
  intros x. destruct (Nat.eqb (jid x) k && alive x); [|reflexivity].
  destruct outcome; reflexivity.
Qed.

(** Once the shutdown flag is set, no step fires a signal, starts a job or
    takes one out of the scheduler; threads can only end. *)
Lemma latched_step (op : Op) (sys : System) :
  shutdown_now (loop sys) = true ->
  shutdown_now (loop (exec op sys)) = true
  /\ fired (loop (exec op sys)) = fired (loop sys)
  /\ map jid (running_jobs (loop (exec op sys)))
     = map jid (running_jobs (loop sys))
  /\ get_queue_length (loop sys) <= get_queue_length (loop (exec op sys))
  /\ (forall j, thread_alive j (loop (exec op sys)) = true ->
               thread_alive j (loop sys) = true).
Proof.
  intros Hs. unfold get_queue_length.
  destruct op; cbn [exec loop].
  12:{ unfold coordinator_step. destruct (coordinator sys); cbn;
         try rewrite Hs; cbn; repeat split; try assumption; try lia; auto. }
  11:{ split; [assumption | split; [reflexivity | split; [apply jid_ended|]]].
       split; [cbn; rewrite List.length_map; lia|].
       intros x; apply thread_alive_ended. }
  all: apply call_cases; [repeat split; auto; lia|].
  all: api; repeat split; try assumption; try reflexivity;
    unfold thread_alive; cbn; rewrite ?List.length_app; cbn; try lia; auto.
  all: match goal with
       | H : first_named _ (queue _) = Some _ |- _ =>
           apply first_named_remove_length in H; lia
       end.
Qed.

Lemma latched_history (ops : list Op) : forall sys,
  shutdown_now (loop sys) = true ->
  Forall (fun x => shutdown_now (loop x) = true
                   /\ fired (loop x) = fired (loop sys)
                   /\ map jid (running_jobs (loop x))
                      = map jid (running_jobs (loop sys))
                   /\ get_queue_length (loop sys) <= get_queue_length (loop x))
         (history ops sys)
  /\ only_ending (loop sys) (map loop (history ops sys)).
Proof.
  induction ops as [|op ops IH]; intros sys Hs; cbn.
  - split; constructor.
  - destruct (latched_step op sys Hs) as (H1 & H2 & H3 & H4 & H5).
    destruct (IH (exec op sys) H1) as [Hall Hend].
    split; [constructor|].
    + repeat split; assumption.
    + eapply Forall_impl; [|exact Hall]. cbn.
      intros x (Ha & Hb & Hc & Hd). rewrite Hb, Hc, H2, H3.
      repeat split; try assumption; try reflexivity. lia.
    + split; assumption.
Qed.

Lemma last_cons {A} (l : list A) : forall x d, last (x :: l) d = last l x.
Proof.
  induction l as [|y l IH]; intros x d; [reflexivity|].
  change (last (x :: y :: l) d) with (last (y :: l) d).
  now rewrite (IH y d), (IH y x).
Qed.

Section Joins.
Variable cond : MainLoop -> bool.

Lemma wait_while_only_ending (ws : list MainLoop) : forall s s' rest,
  only_ending s ws ->
  wait_while cond s ws = Some (s', rest) ->
  only_ending s' rest
  /\ (forall j, thread_alive j s' = true -> thread_alive j s = true)
  /\ cond s' = false.
Proof.
  induction ws as [|w ws IH]; intros s s' rest Hend; cbn.
  - destruct (cond s) eqn:E; [discriminate|].
    intros [= <- <-]. repeat split; auto.
  - destruct (cond s) eqn:E.
    + intros H. destruct Hend as [Hstep Hend].
      destruct (IH _ _ _ Hend H) as (H1 & H2 & H3).
      repeat split; auto.
    + intros [= <- <-]. repeat split; auto; apply Hend.
Qed.

Lemma wait_while_last (ws : list MainLoop) : forall s s' rest,
  wait_while cond s ws = Some (s', rest) -> last rest s' = last ws s.
Proof.
  induction ws as [|w ws IH]; intros s s' rest; rewrite ?last_cons; cbn.
  - destruct (cond s); [discriminate|]. now intros [= <- <-].
  - destruct (cond s).
    + intros H. apply (IH _ _ _ H).
    + intros [= <- <-]. now rewrite last_cons.
Qed.

Lemma wait_while_ends (ws : list MainLoop) : forall s,
  cond (last ws s) = false -> wait_while cond s ws <> None.
Proof.
  induction ws as [|w ws IH]; intros s; rewrite ?last_cons; cbn.
  - intros H. rewrite H. discriminate.
  - intros H. destruct (cond s); [|discriminate].
    now apply IH.
Qed.
End Joins.

Lemma join_each_ended (jobs : list Job) : forall s ws s' rest,
  only_ending s ws ->
  join_each jobs s ws = Some (s', rest) ->
  (forall j, In j jobs -> thread_alive j s' = false)
  /\ only_ending s' rest
  /\ (forall j, thread_alive j s' = true -> thread_alive j s = true).
Proof.
  induction jobs as [|j jobs IH]; intros s ws s' rest Hend; cbn.
  - intros [= <- <-]. repeat split; auto. intros j [].
  - unfold join. destruct (wait_while (thread_alive j) s ws) as [[s1 ws1]|] eqn:E;
      [|discriminate].
    intros H.
    destruct (wait_while_only_ending _ _ _ Hend E) as (Hend1 & Hmono1 & Hdead).
    destruct (IH _ _ _ _ Hend1 H) as (Hall & Hend' & Hmono').
    split; [|split; auto].
    intros x [<-|Hx]; [|now apply Hall].
    destruct (thread_alive j s') eqn:Ea; [|reflexivity].
    apply Hmono' in Ea. congruence.
Qed.

Lemma join_each_returns (jobs : list Job) : forall s ws,
  only_ending s ws ->
  (forall j, In j jobs -> thread_alive j (last ws s) = false) ->
  join_each jobs s ws <> None.
Proof.
  induction jobs as [|j jobs IH]; intros s ws Hend Hdead; cbn; [discriminate|].
  unfold join.
  destruct (wait_while (thread_alive j) s ws) as [[s1 ws1]|] eqn:E.
  - destruct (wait_while_only_ending _ _ _ Hend E) as (Hend1 & _ & _).
    apply IH; [assumption|]. intros x Hx.
    rewrite (wait_while_last _ _ _ E). apply Hdead. now right.
  - exfalso. revert E. apply wait_while_ends. apply Hdead. now left.
Qed.

(** C5: [shutdown()], called while the monitor can be had, sets
    [shutdown_now] and nothing else.  The flag is one-way: whatever happens
    afterwards it stays set.  A coordinator at the head of its loop leaves the
    loop at its next test without making a pass.  From then on no signal is
    fired (no job-started, no completion event) and the jobs in
    [running_jobs] are the ones that were there at the call, so whatever was
    in [queue] or [force_start] is never started.  When [shutdown] returns,
    the thread of every job that was in [running_jobs] at the call has ended;
    and it does return once they all have. *)
Theorem shutdown_spec (sys : System) (ops : list Op) :
  monitor_free sys = true ->
  loop (exec call_shutdown sys) = set_shutdown_now true (loop sys)
  /\ (coordinator sys = looping ->
      exec coordinator_runs (exec call_shutdown sys)
      = mkSystem (set_shutdown_now true (loop sys)) terminated)
  /\ Forall (fun x => shutdown_now (loop x) = true
                      /\ fired (loop x) = fired (loop sys)
                      /\ map jid (running_jobs (loop x))
                         = map jid (running_jobs (loop sys)))
            (history ops (exec call_shutdown sys))
  /\ (forall s' rest,
        shutdown (loop sys) (map loop (history ops (exec call_shutdown sys)))
        = Some (s', rest) ->
        forall j, In j (running_jobs (loop sys)) -> thread_alive j s' = false)
  /\ ((forall j, In j (running_jobs (loop sys)) ->
         thread_alive j
           (last (map loop (history ops (exec call_shutdown sys)))
                 (set_shutdown_now true (loop sys))) = false) ->
      exists s' rest,
        shutdown (loop sys) (map loop (history ops (exec call_shutdown sys)))
        = Some (s', rest)).
Proof.
  intros Hfree.
  assert (Hcall : exec call_shutdown sys
                  = mkSystem (set_shutdown_now true (loop sys)) (coordinator sys)).
  { reflexivity. }
  rewrite Hcall.
  destruct (latched_history ops
              (mkSystem (set_shutdown_now true (loop sys)) (coordinator sys))
              eq_refl) as [Hall Hend].
  split; [reflexivity | split; [|split; [|split]]].
  - intros Hc. cbn. unfold coordinator_step; cbn. now rewrite Hc.
  - eapply Forall_impl; [|exact Hall]. cbn. intros x (Ha & Hb & Hc & _).
    repeat split; assumption.
  - intros s' rest Hret j Hj. unfold shutdown in Hret; cbn in Hret.
    exact (proj1 (join_each_ended _ _ _ Hend Hret) j Hj).
  - intros Hdead. unfold shutdown; cbn.
    destruct (join_each (running_jobs (loop sys)) (set_shutdown_now true (loop sys))
                (map loop
                   (history ops
                      (mkSystem (set_shutdown_now true (loop sys))
                                (coordinator sys)))))
      as [[s' rest]|] eqn:E; [eauto|].
    exfalso. revert E. apply join_each_returns; assumption.
Qed.

Lemma shutdown_spec_witness :
  exec coordinator_runs (exec call_shutdown busy)
  = mkSystem (set_shutdown_now true (loop busy)) terminated
  /\ exists s' rest,
       shutdown (loop busy)
                (map loop (history after_shutdown (exec call_shutdown busy)))
       = Some (s', rest).
Proof.
  destruct (@shutdown_spec busy after_shutdown eq_refl)
    as (_ & Hexit & _ & _ & Hret).
  split.
  - apply Hexit. reflexivity.
  - apply Hret. cbn. intros j [<-|[]]. reflexivity.
Defined.

(** ** Waiting for the scheduler to drain *)

Lemma queue_length_pos (s : MainLoop) :
  (get_queue_length s >? 0) = true <-> all_jobs s <> [].
Proof.
  unfold get_queue_length, all_jobs. rewrite Z.gtb_ltb, Z.ltb_lt.
  destruct (queue s), (force_start s), (running_jobs s); cbn;
    split; intros H; try lia; try discriminate; congruence.
Qed.

Lemma queue_length_zero (s : MainLoop) :
  (get_queue_length s >? 0) = false <->
  queue s = [] /\ force_start s = [] /\ running_jobs s = [].
Proof.
  unfold get_queue_length. rewrite Z.gtb_ltb, Z.ltb_ge.
  destruct (queue s), (force_start s), (running_jobs s); cbn;
    split; intros H; try lia; try (repeat split; reflexivity);
    destruct H as (? & ? & ?); discriminate.
Qed.

(** C6 (as stated, refuted): with A running and B queued, [shutdown] is
    called, the coordinator leaves its loop and A's thread ends; the shutdown
    flag is set in every state the waiter wakes up to, and [wait_until_done]
    is still blocked at the end. *)
Lemma shutdown_leaves_waiter_blocked :
  forallb (fun x => shutdown_now (loop x))
          (history (call_shutdown :: after_shutdown) busy) = true
  /\ coordinator (exec_all (call_shutdown :: after_shutdown) busy) = terminated
  /\ wait_until_done (loop busy)
       (map loop (history (call_shutdown :: after_shutdown) busy)) = None.
Proof. vm_compute. repeat split. Qed.

(** C6 (amended): [wait_until_done()] returns at the first of the states it
    sees (the one at entry, then one per wake-up) in which [queue],
    [force_start] and [running_jobs] are all empty, and not before; it stays
    blocked as long as every state holds a job.  A shutdown does not unblock
    it: once [shutdown_now] is set while a job is left, the call stays
    blocked whatever happens next. *)
Theorem wait_until_done_spec
  (s : MainLoop) (wakeups : list MainLoop) (sys : System) (ops : list Op) :
  (forall s' rest,
     wait_until_done s wakeups = Some (s', rest) <->
     exists seen, s :: wakeups = seen ++ s' :: rest
                  /\ Forall (fun x => all_jobs x <> []) seen
                  /\ queue s' = [] /\ force_start s' = []
                  /\ running_jobs s' = [])
  /\ (wait_until_done s wakeups = None <->
      Forall (fun x => all_jobs x <> []) (s :: wakeups))
  /\ (shutdown_now (loop sys) = true -> all_jobs (loop sys) <> [] ->
      wait_until_done (loop sys) (map loop (history ops sys)) = None).
Proof.
  split; [|split].
  - intros s' rest. unfold wait_until_done. rewrite wait_while_returns.
    split; intros (seen & Heq & Hseen & Hs'); exists seen;
      (split; [assumption | split]).
    + eapply Forall_impl; [|exact Hseen]. intros x; apply queue_length_pos.
    + now apply queue_length_zero.
    + eapply Forall_impl; [|exact Hseen]. intros x; apply queue_length_pos.
    + now apply queue_length_zero.
  - unfold wait_until_done. rewrite wait_while_blocked.
    apply Forall_iff. intros x; apply queue_length_pos.
  - intros Hs Hjobs. unfold wait_until_done. apply wait_while_blocked.
    apply queue_length_pos in Hjobs. apply Z.gtb_lt in Hjobs.
    constructor; [now apply Z.gtb_lt|].
    destruct (latched_history ops sys Hs) as [Hall _].
    apply Forall_map. eapply Forall_impl; [|exact Hall]. cbn.
    intros x (_ & _ & _ & Hlen). apply Z.gtb_lt. lia.
Qed.

Lemma wait_until_done_witness :
  wait_until_done (loop (exec call_shutdown busy))
    (map loop (history after_shutdown (exec call_shutdown busy))) = None.
Proof.
  destruct (wait_until_done_spec init [] (exec call_shutdown busy) after_shutdown)
    as (_ & _ & Hblocked).
  apply Hblocked.
  - reflexivity.
  - discriminate.
Defined.

(** * Further properties of the scheduler *)

(** ** Reaping *)

Lemma completed_each_settled (jobs : list Job) : forall s,
  forallb settled jobs = true ->
  for_each jobs _on_job_completed s
  = Ok tt (fire_all (flat_map outcome_signals jobs) s).
Proof.
  induction jobs as [|j jobs IH]; intros s Hall; [reflexivity|].
  cbn in Hall. apply andb_prop in Hall as [Hj Hall].
  cbn [for_each flat_map]. unfold bind. rewrite on_job_completed_cases.
  unfold settled, to_retry, outcome_signals in *.
  destruct (exc_info j) as [info|].
  - destruct (failures j >=? times j); [|discriminate].
    rewrite (IH _ Hall). reflexivity.
  - rewrite (IH _ Hall). reflexivity.
Qed.

Lemma completed_each_retry (pre post : list Job) (j : Job) : forall s,
  forallb settled pre = true -> to_retry j = true ->
  for_each (pre ++ j :: post) _on_job_completed s
  = Raise (NameError "copy")
          (fire_all (flat_map outcome_signals pre ++ outcome_signals j) s).
Proof.
  induction pre as [|x pre IH]; intros s Hpre Hj.
  - cbn [app for_each flat_map]. unfold bind.
    rewrite on_job_completed_cases.
    unfold to_retry, outcome_signals in *.
    destruct (exc_info j) as [info|]; [|discriminate].
    destruct (failures j >=? times j); [discriminate | reflexivity].
  - cbn in Hpre. apply andb_prop in Hpre as [Hx Hpre].
    cbn [app for_each flat_map]. unfold bind. rewrite on_job_completed_cases.
    unfold settled, to_retry, outcome_signals in Hx |- *.
    destruct (exc_info x) as [info|].
    + destruct (failures x >=? times x); [|discriminate].
      rewrite (IH _ Hpre Hj). reflexivity.
    + rewrite (IH _ Hpre Hj). reflexivity.
Qed.

Lemma first_unsettled (jobs : list Job) :
  forallb settled jobs = false ->
  exists pre j post,
    jobs = pre ++ j :: post /\ forallb settled pre = true /\ to_retry j = true.
Proof.
  induction jobs as [|x jobs IH]; cbn; [discriminate|].
  destruct (settled x) eqn:Hx; cbn.
  - intros H. destruct (IH H) as (pre & j & post & -> & Hpre & Hj).
    exists (x :: pre), j, post. cbn. rewrite Hx, Hpre. auto.
  - intros _. exists [], x, jobs. repeat split.
    unfold settled in Hx. now destruct (to_retry x).
Qed.

Lemma reap_settled (s : MainLoop) :
  forallb settled (completed s) = true ->
  _update_running_jobs s
  = Ok tt (fire_all (flat_map outcome_signals (completed s))
             (set_running_jobs (kept s) s)).
Proof.
  intros Hall. unfold _update_running_jobs; run_monad.
  now apply completed_each_settled.
Qed.

Lemma reap_retry (s : MainLoop) (pre post : list Job) (j : Job) :
  completed s = pre ++ j :: post ->
  forallb settled pre = true -> to_retry j = true ->
  _update_running_jobs s
  = Raise (NameError "copy")
          (fire_all (flat_map outcome_signals pre ++ outcome_signals j)
             (set_running_jobs (kept s) s)).
Proof.
  intros Hc Hpre Hj. unfold _update_running_jobs; run_monad.
  fold (completed s). rewrite Hc. now apply completed_each_retry.
Qed.

(** X1: [_update_running_jobs] keeps in [running_jobs] exactly the jobs whose
    thread is alive, in their order, whether it returns or raises.  It returns
    when no ended job is to be retried, having fired the signals of the ended
    jobs in their order.  When the first ended job to be retried is [j], it
    raises NameError right after [j]'s job-error: the ended jobs behind [j]
    have left [running_jobs] and none of their signals is fired. *)
Theorem update_running_jobs_exact (s : MainLoop) :
  (forallb settled (completed s) = true ->
     _update_running_jobs s
     = Ok tt (fire_all (flat_map outcome_signals (completed s))
                (set_running_jobs (kept s) s)))
  /\ (forall pre j post,
        completed s = pre ++ j :: post ->
        forallb settled pre = true -> to_retry j = true ->
        _update_running_jobs s
        = Raise (NameError "copy")
                (fire_all (flat_map outcome_signals pre ++ outcome_signals j)
                   (set_running_jobs (kept s) s)))
  /\ running_jobs (state_of (_update_running_jobs s)) = kept s
  /\ queue (state_of (_update_running_jobs s)) = queue s
  /\ force_start (state_of (_update_running_jobs s)) = force_start s
  /\ sleeping_actions (state_of (_update_running_jobs s)) = sleeping_actions s.
Proof.
  split; [|split].
  - apply reap_settled.
  - intros pre j post. apply reap_retry.
  - destruct (update_running_jobs_cases s) as [es [H|H]]; rewrite H; cbn;
      autorewrite with fields; repeat split.
Qed.

Lemma update_running_jobs_exact_witness :
  _update_running_jobs (loop three_ended)
  = Raise (NameError "copy")
          (fire_all [job_succeeded_event actA; job_error_event actB "boom"]
             (set_running_jobs [] (loop three_ended)))
  /\ _update_running_jobs (loop one_ended)
     = Ok tt (fire_all [job_succeeded_event actA]
                (set_running_jobs [] (loop one_ended))).
Proof.
  split.
  - destruct (update_running_jobs_exact (loop three_ended)) as (_ & Hr & _).
    refine (Hr [nth 0 (running_jobs (loop three_ended)) failed_once]
               (nth 1 (running_jobs (loop three_ended)) failed_once)
               [nth 2 (running_jobs (loop three_ended)) failed_once]
               eq_refl eq_refl eq_refl).
  - destruct (update_running_jobs_exact (loop one_ended)) as (Hok & _).
    apply Hok. reflexivity.
Defined.

(** ** The order of the signals of a pass *)

Lemma signal_if_empty_eq (s : MainLoop) :
  signal_if_empty s
  = Ok tt (if get_queue_length s =? 0 then fire queue_empty_event s else s).
Proof.
  unfold signal_if_empty; run_monad.
  destruct (get_queue_length s =? 0); reflexivity.
Qed.

Lemma queue_length_idle (es : list Event) (s : MainLoop) :
  (if get_queue_length (fire_all es (set_running_jobs (kept s) s)) =? 0
   then fire queue_empty_event (fire_all es (set_running_jobs (kept s) s))
   else fire_all es (set_running_jobs (kept s) s))
  = fire_all (es ++ idle_signal s) (set_running_jobs (kept s) s).
Proof.
  unfold get_queue_length, idle_signal. autorewrite with fields. cbn.
  destruct (queue s), (force_start s), (kept s); cbn;
    try (rewrite app_nil_r; reflexivity);
    state_eq.
Qed.

(** A pass in which no ended job is to be retried comes to its gates in a
    state that differs from the one it started in by the reaping, the forced
    starts and the signals of both. *)
Lemma run_pass_settled (s : MainLoop) :
  forallb settled (completed s) = true ->
  run_pass s
  = admit_next
      (fire_all (flat_map outcome_signals (completed s) ++ idle_signal s
                 ++ map (fun j => job_started_event (action j)) (force_start s))
         (set_force_start [] (set_running_jobs (kept_and_forced s) s))).
Proof.
  intros Hall. pose proof (reap_settled s Hall) as H1.
  pose proof (signal_if_empty_eq
                (fire_all (flat_map outcome_signals (completed s))
                   (set_running_jobs (kept s) s))) as H2.
  rewrite queue_length_idle in H2.
  set (s2 := fire_all (flat_map outcome_signals (completed s) ++ idle_signal s)
               (set_running_jobs (kept s) s)) in H2.
  pose proof (start_forced_eq s2) as H3.
  unfold run_pass, bind. rewrite H1, H2, H3. f_equal.
  subst s2. state_eq.
Qed.

Lemma run_pass_unsettled (s : MainLoop) :
  forallb settled (completed s) = false ->
  exists es,
    run_pass s
    = Raise (NameError "copy") (fire_all es (set_running_jobs (kept s) s)).
Proof.
  intros Hall.
  destruct (first_unsettled _ Hall) as (pre & j & post & Hc & Hpre & Hj).
  exists (flat_map outcome_signals pre ++ outcome_signals j).
  unfold run_pass, bind. now rewrite (reap_retry s pre post j Hc Hpre Hj).
Qed.

Lemma run_pass_fired (s : MainLoop) (p : Pass) (s' : MainLoop) :
  run_pass s = Ok p s' ->
  fired s'
  = fired s ++ flat_map outcome_signals (completed s) ++ idle_signal s
    ++ map (fun j => job_started_event (action j)) (force_start s)
    ++ admission_signal p.
Proof.
  intros Hp. destruct (forallb settled (completed s)) eqn:Hall.
  - rewrite (run_pass_settled s Hall) in Hp.
    destruct (admit_next_cases
                (fire_all (flat_map outcome_signals (completed s)
                           ++ idle_signal s
                           ++ map (fun j => job_started_event (action j))
                                (force_start s))
                   (set_force_start []
                      (set_running_jobs (kept_and_forced s) s))))
      as [[Hw _]|(job & rest & _ & _ & _ & Had)].
    + rewrite Hw in Hp. injection Hp as <- <-.
      fields. now rewrite app_nil_r.
    + rewrite Had in Hp. injection Hp as <- <-.
      fields. now rewrite <- !app_assoc.
  - destruct (run_pass_unsettled s Hall) as [es H]. congruence.
Qed.

Lemma run_pass_admitted (s : MainLoop) (job : Job) (s' : MainLoop) :
  run_pass s = Ok (admitted job) s' ->
  queue s = job :: queue s'
  /\ running_jobs s' = kept s ++ map started (force_start s) ++ [started job]
  /\ force_start s' = [].
Proof.
  intros Hrun.
  destruct (run_pass_cases s)
    as [es [H|[[H _]|(job' & rest & Hq & _ & _ & H)]]];
    rewrite H in Hrun; try discriminate.
  injection Hrun as <- <-. autorewrite with fields; cbn.
  unfold kept_and_forced. rewrite <- app_assoc. auto.
Qed.

Lemma run_pass_waits (s s' : MainLoop) :
  run_pass s = Ok waits s' ->
  queue s' = queue s
  /\ running_jobs s' = kept s ++ map started (force_start s)
  /\ force_start s' = [].
Proof.
  intros Hrun.
  destruct (run_pass_cases s)
    as [es [H|[[H _]|(job' & rest & Hq & _ & _ & H)]]];
    rewrite H in Hrun; try discriminate.
  injection Hrun as <-. autorewrite with fields; cbn. auto.
Qed.

(** X2: a pass that does not die fires its signals in this order: the signal
    of every job whose thread has ended (job-succeeded, or job-error followed
    by job-aborted), in the order of [running_jobs]; then queue-empty, if the
    reaping has left no job in [queue], [force_start] or [running_jobs]; then
    job-started for every job of [force_start], in order; then job-started
    for the job it admits from the queue, if it admits one.  A pass dies
    exactly when a job whose thread has ended is to be retried. *)
Theorem run_pass_signals (s : MainLoop) :
  (forall p s', run_pass s = Ok p s' ->
     fired s'
     = fired s ++ flat_map outcome_signals (completed s) ++ idle_signal s
       ++ map (fun j => job_started_event (action j)) (force_start s)
       ++ admission_signal p)
  /\ ((exists e s', run_pass s = Raise e s') <->
      forallb settled (completed s) = false).
Proof.
  split; [intros p s'; apply run_pass_fired|].
  destruct (forallb settled (completed s)) eqn:Hall.
  - split; [|discriminate]. intros (e & s' & Hr).
    rewrite (run_pass_settled s Hall) in Hr.
    destruct (admit_next_cases
                (fire_all (flat_map outcome_signals (completed s)
                           ++ idle_signal s
                           ++ map (fun j => job_started_event (action j))
                                (force_start s))
                   (set_force_start []
                      (set_running_jobs (kept_and_forced s) s))))
      as [[Hw _]|(job & rest & _ & _ & _ & Had)]; congruence.
  - split; [reflexivity|]. intros _.
    destruct (run_pass_unsettled s Hall) as [es H]. eauto.
Qed.

Lemma run_pass_signals_witness :
  exists s',
    run_pass (loop one_ended)
    = Ok (admitted (nth 0 (queue (loop one_ended)) failed_once)) s'
    /\ fired s' = [job_started_event actA; job_succeeded_event actA;
                   job_started_event actB].
Proof.
  destruct (run_pass (loop one_ended)) as [p s'|e s'] eqn:E;
    [|vm_compute in E; discriminate].
  exists s'.
  pose proof (proj1 (run_pass_signals (loop one_ended)) p s' E) as Hf.
  assert (Hp : p = admitted (nth 0 (queue (loop one_ended)) failed_once))
    by (vm_compute in E; injection E as <- _; reflexivity).
  subst p. split; [reflexivity | exact Hf].
Defined.

(** ** The gates of a pass *)

(** X3: a pass that does not die starts every job of [force_start], in
    order, and empties [force_start], whatever [paused] and [max_threads]
    are.  It then admits a job exactly when the queue is not empty, the
    scheduler is not paused, and the jobs in [running_jobs] after the reaping
    and the forced starts, less the sleepers, are fewer than [max_threads];
    the job is the head of the queue and the only one to leave it.  No job
    is lost: the jobs in the scheduler after the pass are as many as the
    queued, the forced and the alive running ones before. *)
Theorem run_pass_gates (s : MainLoop) (p : Pass) (s' : MainLoop) :
  run_pass s = Ok p s' ->
  force_start s' = []
  /\ ((exists job, p = admitted job) <->
      queue s <> [] /\ paused s = false /\ gate_count s < max_threads s)
  /\ (forall job, p = admitted job ->
        queue s = job :: queue s'
        /\ running_jobs s'
           = kept s ++ map started (force_start s) ++ [started job])
  /\ (p = waits ->
        queue s' = queue s
        /\ running_jobs s' = kept s ++ map started (force_start s))
  /\ get_queue_length s'
     = Z.of_nat (List.length (queue s))
       + Z.of_nat (List.length (force_start s))
       + Z.of_nat (List.length (kept s)).
Proof.
  intros Hrun. unfold get_queue_length.
  destruct (run_pass_cases s)
    as [es [H|[[H Hwhy]|(job & rest & Hq & Hnp & Hlt & H)]]];
    rewrite H in Hrun; try discriminate.
  - injection Hrun as <- <-. autorewrite with fields; cbn.
    split; [reflexivity | split; [|split; [|split]]].
    + split.
      * intros [job Hjob]; discriminate.
      * intros (Hq & Hnp & Hlt).
        destruct Hwhy as [Hq'|[Hp|Hge]]; [contradiction | congruence | lia].
    + intros job Hjob; discriminate.
    + intros _. split; reflexivity.
    + unfold kept_and_forced. rewrite List.length_app, List.length_map. lia.
  - injection Hrun as <- <-. autorewrite with fields; cbn.
    split; [reflexivity | split; [|split; [|split]]].
    + split.
      * intros _. rewrite Hq. repeat split; [discriminate | assumption..].
      * intros _. eauto.
    + intros job' [= <-]. split; [assumption|].
      unfold kept_and_forced. now rewrite <- app_assoc.
    + discriminate.
    + unfold kept_and_forced. rewrite Hq.
      rewrite !List.length_app, List.length_map. cbn [List.length]. lia.
Qed.

Lemma run_pass_gates_witness :
  exists s',
    run_pass (loop one_ended)
    = Ok (admitted (nth 0 (queue (loop one_ended)) failed_once)) s'
    /\ force_start s' = [] /\ get_queue_length s' = 1.
Proof.
  destruct (run_pass (loop one_ended)) as [p s'|e s'] eqn:E;
    [|vm_compute in E; discriminate].
  exists s'.
  destruct (run_pass_gates (loop one_ended) E) as (Hf & _ & _ & _ & Hlen).
  assert (Hp : p = admitted (nth 0 (queue (loop one_ended)) failed_once))
    by (vm_compute in E; injection E as <- _; reflexivity).
  subst p. split; [reflexivity | split; [exact Hf | exact Hlen]].
Defined.

(** ** Plain and priority admission *)

Lemma enqueue_eq (a : Action) (t : Z) (s : MainLoop) :
  enqueue a t s
  = Ok tt (set_queue (queue s ++ [created_job s a t])
                     (set_next_jid (S (next_jid s)) s)).
Proof. reflexivity. Qed.

Lemma enqueue_each_frame (calls : list (Action * Z)) : forall s,
  exists news,
    queue (enqueue_each calls s) = queue s ++ news
    /\ map action news = map fst calls
    /\ map times news = map snd calls
    /\ map jid news = seq (next_jid s) (List.length calls)
    /\ force_start (enqueue_each calls s) = force_start s
    /\ running_jobs (enqueue_each calls s) = running_jobs s
    /\ sleeping_actions (enqueue_each calls s) = sleeping_actions s
    /\ paused (enqueue_each calls s) = paused s
    /\ max_threads (enqueue_each calls s) = max_threads s
    /\ fired (enqueue_each calls s) = fired s.
Proof.
  induction calls as [|[a t] calls IH]; intros s.
  - exists []. cbn. rewrite app_nil_r. repeat split.
  - cbn [enqueue_each]. rewrite enqueue_eq. cbn [state_of].
    destruct (IH (set_queue (queue s ++ [created_job s a t])
                    (set_next_jid (S (next_jid s)) s)))
      as (news & Hq & Ha & Ht & Hj & Hf & Hr & Hs & Hp & Hm & Hfi).
    exists (created_job s a t :: news). cbn in *.
    rewrite Hq, <- app_assoc, Ha, Ht, Hj. repeat split; assumption.
Qed.



(** X5: [priority_enqueue] always succeeds.  With [force_start] false the new
    job goes to the head of the queue, ahead of every job already queued, so
    the next pass that admits a job admits this one and leaves the others
    queued.  With [force_start] true it goes to the tail of [force_start],
    and the next pass that does not die starts it, whatever [paused] and
    [max_threads] are, leaving the queue alone unless it also admits its
    head. *)
Theorem priority_enqueue_spec (a : Action) (t : Z) (s : MainLoop) :
  (forall force,
     priority_enqueue a force t s
     = Ok tt (placed force (created_job s a t)
                (set_next_jid (S (next_jid s)) s)))
  /\ (forall job s',
        run_pass (state_of (priority_enqueue a false t s))
        = Ok (admitted job) s' ->
        job = created_job s a t /\ queue s' = queue s)
  /\ (forall p s',
        run_pass (state_of (priority_enqueue a true t s)) = Ok p s' ->
        In (started (created_job s a t)) (running_jobs s')
        /\ force_start s' = []
        /\ In (job_started_event a) (fired s')).
Proof.
  assert (Heq : forall force,
             priority_enqueue a force t s
             = Ok tt (placed force (created_job s a t)
                        (set_next_jid (S (next_jid s)) s)))
    by (intros [|]; reflexivity).
  split; [exact Heq | split].
  - intros job s' Hrun. rewrite Heq in Hrun. cbn [state_of placed] in Hrun.
    destruct (run_pass_admitted _ Hrun) as [Hhead _]. cbn in Hhead.
    injection Hhead as <- <-. split; reflexivity.
  - intros p s' Hrun. rewrite Heq in Hrun. cbn [state_of placed] in Hrun.
    pose proof (run_pass_fired _ Hrun) as Hfired.
    cbn [force_start set_force_start] in *.
    destruct p as [|job].
    + destruct (run_pass_waits _ Hrun) as (_ & Hr & Hfs).
      split; [|split; [assumption|]].
      * rewrite Hr. cbn. rewrite map_app. apply in_or_app; right.
        apply in_or_app; right. now left.
      * rewrite Hfired. rewrite map_app. cbn.
        apply in_or_app; right. apply in_or_app; right.
        apply in_or_app; right. apply in_or_app; left.
        apply in_or_app; right. now left.
    + destruct (run_pass_admitted _ Hrun) as (_ & Hr & Hfs).
      split; [|split; [assumption|]].
      * rewrite Hr. cbn. rewrite map_app. apply in_or_app; right.
        apply in_or_app; left. apply in_or_app; right. now left.
      * rewrite Hfired. rewrite map_app. cbn.
        apply in_or_app; right. apply in_or_app; right.
        apply in_or_app; right. apply in_or_app; left.
        apply in_or_app; right. now left.
Qed.

Lemma priority_enqueue_spec_witness :
  exists s',
    run_pass (state_of (priority_enqueue actC true 1 (loop busy))) = Ok waits s'
    /\ In (started (created_job (loop busy) actC 1)) (running_jobs s')
    /\ max_threads s' = 1 /\ List.length (running_jobs s') = 2%nat.
Proof.
  destruct (run_pass (state_of (priority_enqueue actC true 1 (loop busy))))
    as [p s'|e s'] eqn:E; [|vm_compute in E; discriminate].
  destruct (priority_enqueue_spec actC 1 (loop busy)) as (_ & _ & Hforced).
  destruct (Hforced p s' E) as (Hin & _ & _).
  vm_compute in E. injection E as <- <-.
  eexists. split; [reflexivity | split; [exact Hin | split; reflexivity]].
Defined.

(** ** The Job objects of a scheduler *)

Lemma idcount_app (k : nat) (l l' : list Job) :
  idcount k (l ++ l') = (idcount k l + idcount k l')%nat.
Proof. unfold idcount. now rewrite map_app, count_occ_app. Qed.

Lemma idcount_cons (k : nat) (j : Job) (l : list Job) :
  idcount k (j :: l) = (idcount k [j] + idcount k l)%nat.
Proof. exact (idcount_app k [j] l). Qed.

Lemma idcount_nil (k : nat) : idcount k [] = 0%nat.
Proof. reflexivity. Qed.

Lemma idcount_filter (k : nat) (f : Job -> bool) (l : list Job) :
  (idcount k (filter f l) <= idcount k l)%nat.
Proof.
  induction l as [|j l IH]; [apply Nat.le_refl|].
  cbn [filter]. destruct (f j).
  - rewrite (idcount_cons k j (filter f l)), (idcount_cons k j l). lia.
  - rewrite (idcount_cons k j l). lia.
Qed.

Lemma idcount_map (k : nat) (f : Job -> Job) (l : list Job) :
  (forall j, jid (f j) = jid j) -> idcount k (map f l) = idcount k l.
Proof.
  intros Hf. unfold idcount. rewrite map_map. f_equal.
  apply map_ext. exact Hf.
Qed.

Lemma idcount_remove_job (k : nat) (ex : Job) (q : list Job) :
  (idcount k (remove_job ex q) <= idcount k q)%nat.
Proof.
  induction q as [|j q IH]; [apply Nat.le_refl|].
  cbn [remove_job]. destruct (Nat.eqb (jid j) (jid ex)).
  - rewrite (idcount_cons k j q). lia.
  - rewrite (idcount_cons k j (remove_job ex q)), (idcount_cons k j q). lia.
Qed.

Lemma idcount_single (k : nat) (j : Job) :
  idcount k [j] = if Nat.eq_dec (jid j) k then 1%nat else 0%nat.
Proof. unfold idcount; cbn. destruct (Nat.eq_dec (jid j) k); reflexivity. Qed.

Lemma idcount_fresh (n : nat) (l : list Job) :
  (forall j, In j l -> (jid j < n)%nat) -> idcount n l = 0%nat.
Proof.
  intros H. unfold idcount. apply count_occ_not_In. intros Hin.
  apply in_map_iff in Hin as [j [Hj Hin]]. apply H in Hin. lia.
Qed.

Lemma remove_job_incl (ex : Job) (q : list Job) (j : Job) :
  In j (remove_job ex q) -> In j q.
Proof.
  induction q as [|x q IH]; cbn; [tauto|].
  destruct (Nat.eqb (jid x) (jid ex)); cbn; intuition.
Qed.

Lemma first_named_found (n : option string) (q : list Job) (ex : Job) :
  first_named n q = Some ex -> In ex q /\ name ex = n.
Proof.
  unfold first_named. intros H. apply find_some in H as [Hin Hn].
  split; [assumption | now apply name_eqb_eq].
Qed.

Lemma all_jobs_fire_all (es : list Event) (s : MainLoop) :
  all_jobs (fire_all es s) = all_jobs s.
Proof. unfold all_jobs. now autorewrite with fields. Qed.

(** A step after which every job is a job that was there, at most as often,
    and every waiting job was waiting. *)
Lemma well_formed_kept (s s' : MainLoop) :
  well_formed s ->
  next_jid s' = next_jid s ->
  (forall k, (idcount k (all_jobs s') <= idcount k (all_jobs s))%nat) ->
  (forall j, In j (all_jobs s') ->
     exists j0, In j0 (all_jobs s) /\ jid j = jid j0 /\ name j = name j0
                /\ action j = action j0) ->
  (forall j, In j (queue s' ++ force_start s') ->
             In j (queue s ++ force_start s)) ->
  well_formed s'.
Proof.
  intros (Hnd & Hall & Hun) Hn Hc Hin Hw. split; [|split].
  - apply (NoDup_count_occ Nat.eq_dec). intros k.
    pose proof (proj1 (NoDup_count_occ Nat.eq_dec _) Hnd k) as Hk.
    specialize (Hc k). unfold idcount in Hc. lia.
  - intros j Hj. destruct (Hin j Hj) as (j0 & Hj0 & -> & -> & ->).
    rewrite Hn. now apply Hall.
  - intros j Hj. apply Hun. now apply Hw.
Qed.

(** A step that adds one job fresh from [_create_job]. *)
Lemma well_formed_grown (s s' : MainLoop) (a : Action) (t : Z) :
  well_formed s ->
  next_jid s' = S (next_jid s) ->
  (forall k, (idcount k (all_jobs s')
              <= idcount k [created_job s a t] + idcount k (all_jobs s))%nat) ->
  (forall j, In j (all_jobs s') ->
     j = created_job s a t
     \/ exists j0, In j0 (all_jobs s) /\ jid j = jid j0 /\ name j = name j0
                   /\ action j = action j0) ->
  (forall j, In j (queue s' ++ force_start s') ->
             j = created_job s a t \/ In j (queue s ++ force_start s)) ->
  well_formed s'.
Proof.
  intros (Hnd & Hall & Hun) Hn Hc Hin Hw. split; [|split].
  - apply (NoDup_count_occ Nat.eq_dec). intros k.
    pose proof (proj1 (NoDup_count_occ Nat.eq_dec _) Hnd k) as Hk.
    specialize (Hc k). rewrite idcount_single in Hc. cbn [jid created_job] in Hc.
    unfold idcount in Hc.
    destruct (Nat.eq_dec (next_jid s) k) as [<-|Hne]; [|lia].
    pose proof (@idcount_fresh (next_jid s) (all_jobs s)
                  (fun j Hj => proj1 (Hall j Hj))) as H0.
    unfold idcount in H0. lia.
  - intros j Hj. rewrite Hn.
    destruct (Hin j Hj) as [->|(j0 & Hj0 & -> & -> & ->)].
    + cbn. split; [lia | reflexivity].
    + destruct (Hall j0 Hj0). split; [lia | assumption].
  - intros j Hj. destruct (Hw j Hj) as [->|Hold].
    + repeat split.
    + now apply Hun.
Qed.

Ltac in_cases :=
  repeat match goal with
         | H : In _ (_ ++ _) |- _ => apply in_app_or in H; destruct H as [H|H]
         | H : In _ (_ :: _) |- _ => destruct H as [H|H]
         | H : In _ [] |- _ => destruct H
         | H : False |- _ => destruct H
         | H : _ \/ _ |- _ => destruct H as [H|H]
         | H : In _ (filter _ _) |- _ => apply filter_In in H; destruct H as [H _]
         | H : In _ (map _ _) |- _ =>
             apply in_map_iff in H; destruct H as [? [? H]]
         | H : In _ (remove_job _ _) |- _ => apply remove_job_incl in H
         | H : In _ (kept _) |- _ => unfold kept in H
         | H : In _ (kept_and_forced _) |- _ => unfold kept_and_forced in H
         end.

Ltac same_props :=
  repeat split; try reflexivity;
  repeat match goal with
         | |- context [if ?b then _ else _] => destruct b
         | |- context [ended ?o _] => is_var o; destruct o
         end; reflexivity.

(** Finds the job of the earlier state that a job of the later one is. *)
Ltac same_job :=
  subst; unfold all_jobs;
  repeat match goal with
         | H : queue _ = _ :: _ |- _ => rewrite H; clear H
         end;
  first
    [ match goal with
      | H : In ?x _ |- exists j0, In j0 _ /\ _ =>
          exists x; split; [rewrite ?in_app_iff; cbn; tauto | same_props]
      end
    | match goal with
      | |- exists j0, In j0 ((?x :: _) ++ _) /\ _ =>
          exists x; split; [left; reflexivity | same_props]
      end ].

Ltac counts :=
  unfold all_jobs, kept_and_forced, kept, created_job; cbn;
  repeat first
    [ rewrite idcount_app
    | match goal with
      | |- context [idcount ?k (?j :: ?l)] =>
          lazymatch l with
          | [] => fail
          | _ => rewrite (idcount_cons k j l)
          end
      end ];
  rewrite ?idcount_nil.

Lemma well_formed_pass (s : MainLoop) :
  well_formed s -> well_formed (state_of (run_pass s)).
Proof.
  intros Hwf.
  destruct (run_pass_cases s)
    as [es [H|[[H _]|(job & rest & Hq & _ & _ & H)]]]; rewrite H; cbn [state_of];
    apply (@well_formed_kept s); try assumption.
  all: try (now autorewrite with fields).
  all: rewrite ?all_jobs_fire_all; autorewrite with fields; cbn.
  - intros k. counts. pose proof (idcount_filter k alive (running_jobs s)). lia.
  - intros j Hj. in_cases; same_job.
  - intros k. counts. rewrite (idcount_map k started) by reflexivity.
    pose proof (idcount_filter k alive (running_jobs s)). lia.
  - intros j Hj. in_cases; same_job.
  - intros j Hj. rewrite app_nil_r in Hj. apply in_or_app. now left.
  - intros k. unfold all_jobs. rewrite Hq. counts.
    rewrite (idcount_map k started) by reflexivity.
    change (idcount k [started job]) with (idcount k [job]).
    pose proof (idcount_filter k alive (running_jobs s)). lia.
  - intros j Hj. in_cases; same_job.
  - intros j Hj. rewrite app_nil_r in Hj. rewrite Hq.
    apply in_or_app. left. now right.
Qed.

Lemma well_formed_step (op : Op) (sys : System) :
  well_formed (loop sys) -> well_formed (loop (exec op sys)).
Proof.
  intros Hwf. destruct op; cbn [exec];
    try (apply call_cases; [exact Hwf|]).
  - (* enqueue *)
    rewrite enqueue_eq; cbn [state_of].
    apply (@well_formed_grown (loop sys) _ a t Hwf); [reflexivity|..].
    + intros k. counts. lia.
    + intros j Hj. unfold all_jobs in Hj; cbn in Hj. in_cases;
        [right; same_job | now left | right; same_job | right; same_job].
    + intros j Hj. cbn in Hj. in_cases; auto;
        right; apply in_or_app; auto.
  - (* enqueue_or_ignore *)
    destruct (enqueue_or_ignore_cases a t (loop sys)) as [H|H]; rewrite H;
      cbn [state_of]; [exact Hwf|].
    apply (@well_formed_grown (loop sys) _ a t Hwf); [reflexivity|..].
    + intros k. counts. lia.
    + intros j Hj. unfold all_jobs in Hj; cbn in Hj. in_cases;
        [right; same_job | now left | right; same_job | right; same_job].
    + intros j Hj. cbn in Hj. in_cases; auto;
        right; apply in_or_app; auto.
  - (* priority_enqueue *)
    api; apply (@well_formed_grown (loop sys) _ a t Hwf);
      try reflexivity.
    all: try (intros k; counts; lia).
    all: intros j Hj; unfold all_jobs in Hj; cbn in Hj; in_cases; subst;
      auto; try (right; same_job); try (right; apply in_or_app; auto).
  - (* priority_enqueue_or_raise *)
    api; try exact Hwf.
    all: match goal with
         | H : first_named _ (queue _) = Some ?ex |- _ =>
             apply (@well_formed_grown (loop sys) _ (action ex) t Hwf)
         | _ => apply (@well_formed_grown (loop sys) _ a t Hwf)
         end; try reflexivity.
    all: try (intros k; counts;
              try match goal with
                  | |- context [remove_job ?ex ?q] =>
                      pose proof (idcount_remove_job k ex q)
                  end; lia).
    all: intros x Hx; unfold all_jobs in Hx; cbn in Hx; in_cases; subst;
      auto; try (right; same_job); try (right; apply in_or_app; auto).
  - (* pause *) exact Hwf.
  - (* resume *) exact Hwf.
  - (* set_max_threads *) api; exact Hwf.
  - (* sleep notify *) api; exact Hwf.
  - (* wake notify *) api; exact Hwf.
  - (* shutdown *) exact Hwf.
  - (* a thread ends *)
    cbn. apply (@well_formed_kept (loop sys)); try assumption;
      try reflexivity.
    + intros k. counts.
      rewrite (idcount_map k
                 (fun x => if Nat.eqb (jid x) j && alive x
                           then ended outcome x else x)); [lia|].
      intros x. destruct (Nat.eqb (jid x) j && alive x); [|reflexivity].
      destruct outcome; reflexivity.
    + intros x Hx. unfold all_jobs in Hx; cbn in Hx. in_cases; same_job.
    + intros x Hx. exact Hx.
  - (* the coordinator *)
    unfold coordinator_step. destruct (coordinator sys); try exact Hwf.
    destruct (shutdown_now (loop sys)); [exact Hwf|].
    pose proof (well_formed_pass Hwf) as Hp.
    destruct (run_pass (loop sys)); exact Hp.
Qed.

Lemma well_formed_run (ops : list Op) : forall sys,
  well_formed (loop sys) -> well_formed (loop (exec_all ops sys)).
Proof.
  induction ops as [|op ops IH]; intros sys Hwf; cbn; [exact Hwf|].
  apply IH. now apply well_formed_step.
Qed.

Lemma well_formed_init : well_formed init.
Proof.
  split; [constructor | split]; intros j [].
Qed.

Lemma idcount_In (j : Job) (l : list Job) :
  In j l -> (1 <= idcount (jid j) l)%nat.
Proof.
  intros Hin. unfold idcount.
  apply (count_occ_In Nat.eq_dec). apply in_map_iff. eauto.
Qed.

Lemma well_formed_disjoint (s : MainLoop) (j j' : Job) :
  well_formed s ->
  In j (queue s ++ force_start s) -> In j' (running_jobs s) ->
  jid j <> jid j'.
Proof.
  intros (Hnd & _) Hj Hj' Heq.
  pose proof (proj1 (NoDup_count_occ Nat.eq_dec _) Hnd (jid j)) as Hk.
  fold (idcount (jid j) (all_jobs s)) in Hk.
  unfold all_jobs in Hk. rewrite app_assoc, idcount_app in Hk.
  apply idcount_In in Hj. apply idcount_In in Hj'. rewrite <- Heq in Hj'. lia.
Qed.


(** ** Names and the de-duplicating calls *)

Lemma named_length_app (n : option string) (l l' : list Job) :
  List.length (filter (fun j => name_eqb (name j) n) (l ++ l'))
  = (List.length (filter (fun j => name_eqb (name j) n) l)
     + List.length (filter (fun j => name_eqb (name j) n) l'))%nat.
Proof. now rewrite filter_app, List.length_app. Qed.

Lemma remove_job_named (n : option string) (q : list Job) (ex : Job) :
  NoDup (map jid q) -> In ex q ->
  List.length (filter (fun j => name_eqb (name j) n) q)
  = (List.length (filter (fun j => name_eqb (name j) n) (remove_job ex q))
     + (if name_eqb (name ex) n then 1 else 0))%nat.
Proof.
  induction q as [|x q IH]; intros Hnd Hin; [destruct Hin|].
  cbn [map] in Hnd. apply NoDup_cons_iff in Hnd as [Hx Hnd].
  cbn [remove_job]. destruct (Nat.eqb_spec (jid x) (jid ex)) as [Heq|Hne].
  - assert (x = ex) as ->.
    { destruct Hin as [H|H]; [assumption|]. exfalso. apply Hx. rewrite Heq.
      apply in_map_iff. eauto. }
    cbn [filter]. destruct (name_eqb (name ex) n); cbn; lia.
  - assert (Hin' : In ex q) by (destruct Hin as [->|H]; [contradiction|exact H]).
    pose proof (IH Hnd Hin') as IH'. cbn [filter].
    destruct (name_eqb (name x) n); cbn [List.length]; lia.
Qed.

Lemma named_count_none (n : option string) (s : MainLoop) :
  first_named n (all_jobs s) = None <-> named_count n s = 0%nat.
Proof.
  split; [apply named_count_zero|].
  unfold named_count, first_named.
  induction (all_jobs s) as [|x xs IH]; cbn; [reflexivity|].
  destruct (name_eqb (name x) n); cbn; [discriminate | exact IH].
Qed.

Lemma first_named_app_none (n : option string) (l l' : list Job) :
  first_named n l = None -> first_named n l' = None ->
  first_named n (l ++ l') = None.
Proof.
  intros H H'. apply first_named_none. intros j Hj.
  apply in_app_or in Hj as [Hj|Hj];
    [exact (proj1 (first_named_none _ _) H j Hj)
    | exact (proj1 (first_named_none _ _) H' j Hj)].
Qed.

Lemma first_named_app_some (n : option string) (l l' : list Job) (j : Job) :
  first_named n l = Some j \/ first_named n l' = Some j ->
  exists j', first_named n (l ++ l') = Some j'.
Proof.
  intros H. apply first_named_some_ex.
  destruct H as [H|H]; apply first_named_found in H as [Hin Hn];
    exists j; (split; [apply in_or_app; auto | assumption]).
Qed.

(** X7: [enqueue] adds a job of the action's name however many there are.
    [enqueue_or_ignore] with an action that has a name leaves as many jobs of
    that name as there were, or one if there was none; with an action whose
    name is [None] it adds a job, as [enqueue] does.
    [priority_enqueue_or_raise] compares the names with [==], [None]
    included: it leaves as many jobs of the action's name as there were, or
    one if there was none, and, although it may take a job out of the queue,
    it changes the number of jobs of no other name. *)
Theorem admission_name_counts (a : Action) (t : Z) (s : MainLoop) :
  well_formed s ->
  named_count (aname a) (state_of (enqueue a t s))
  = S (named_count (aname a) s)
  /\ named_count (aname a) (state_of (enqueue_or_ignore a t s))
     = match aname a with
       | Some _ => Nat.max 1 (named_count (aname a) s)
       | None => S (named_count (aname a) s)
       end
  /\ (forall force,
        named_count (aname a) (state_of (priority_enqueue_or_raise a force t s))
        = Nat.max 1 (named_count (aname a) s))
  /\ (forall force n, n <> aname a ->
        named_count n (state_of (priority_enqueue_or_raise a force t s))
        = named_count n s).
Proof.
  intros (Hnd & Hall & _). split; [|split; [|split]].
  - rewrite enqueue_eq. unfold named_count, all_jobs; cbn.
    rewrite !named_length_app. cbn. rewrite name_eqb_refl. cbn. lia.
  - destruct (aname a) as [n|] eqn:Hname.
    + remember (Nat.max 1 (named_count (Some n) s)) as m eqn:Hm.
      unfold enqueue_or_ignore; run_monad. rewrite Hname. cbn.
      destruct (first_named (Some n) (all_jobs s)) as [j|] eqn:E; cbn.
      * apply named_count_pos in E. lia.
      * apply named_count_none in E. rewrite E in Hm.
        unfold _create_job, new_Job; run_monad.
        unfold named_count, all_jobs in *; cbn.
        rewrite !named_length_app in *. cbn.
        rewrite String.eqb_refl. cbn. lia.
    + rewrite (enqueue_or_ignore_nameless a t s Hname). cbn [state_of].
      unfold named_count, all_jobs; cbn.
      rewrite !named_length_app. cbn. rewrite Hname. cbn. lia.
  - intros force.
    remember (Nat.max 1 (named_count (aname a) s)) as m eqn:Hm.
    unfold priority_enqueue_or_raise; run_monad.
    destruct (first_named (aname a) (force_start s ++ running_jobs s))
      as [j|] eqn:Efr; cbn.
    + assert (1 <= named_count (aname a) s)%nat; [|lia].
      apply first_named_found in Efr as [Hin Hn].
      destruct (@first_named_some_ex (aname a) (all_jobs s)) as [x Hx].
      { exists j. split; [unfold all_jobs; apply in_or_app; now right|assumption]. }
      exact (named_count_pos _ _ Hx).
    + destruct (first_named (aname a) (queue s)) as [ex|] eqn:Eq.
      * pose proof (first_named_found _ _ Eq) as [Hin Hn].
        assert (Hcached : aname (action ex) = aname a).
        { rewrite <- Hn. symmetry. apply Hall.
          unfold all_jobs. apply in_or_app. now left. }
        assert (Hndq : NoDup (map jid (queue s))).
        { unfold all_jobs in Hnd. rewrite map_app in Hnd.
          exact (NoDup_app_remove_r _ _ Hnd). }
        pose proof (@remove_job_named (aname a) (queue s) ex Hndq Hin) as Hrem.
        rewrite Hn, name_eqb_refl in Hrem.
        unfold _create_job, new_Job; run_monad.
        destruct force; cbn; unfold named_count, all_jobs in *; cbn;
          rewrite ?Hcached, ?Hneq, ?name_eqb_refl; cbn;
          rewrite ?named_length_app in *; cbn;
          rewrite ?Hcached, ?Hneq, ?name_eqb_refl; cbn; lia.
      * assert (E : first_named (aname a) (all_jobs s) = None)
          by (unfold all_jobs; now apply first_named_app_none).
        apply named_count_none in E. rewrite E in Hm.
        unfold _create_job, new_Job; run_monad.
        destruct force; cbn; unfold named_count, all_jobs in *; cbn;
          rewrite ?Hcached, ?Hneq, ?name_eqb_refl; cbn;
          rewrite ?named_length_app in *; cbn;
          rewrite ?Hcached, ?Hneq, ?name_eqb_refl; cbn; lia.
  - intros force n Hn. unfold priority_enqueue_or_raise; run_monad.
    destruct (first_named (aname a) (force_start s ++ running_jobs s))
      as [j|] eqn:Efr; cbn; [reflexivity|].
    assert (Hneq : name_eqb (aname a) n = false)
      by (apply name_eqb_neq; congruence).
    destruct (first_named (aname a) (queue s)) as [ex|] eqn:Eq.
    + pose proof (first_named_found _ _ Eq) as [Hin Hname].
      assert (Hcached : aname (action ex) = aname a).
      { rewrite <- Hname. symmetry. apply Hall.
        unfold all_jobs. apply in_or_app. now left. }
      assert (Hndq : NoDup (map jid (queue s))).
      { unfold all_jobs in Hnd. rewrite map_app in Hnd.
        exact (NoDup_app_remove_r _ _ Hnd). }
      pose proof (@remove_job_named n (queue s) ex Hndq Hin) as Hrem.
      rewrite Hname, Hneq in Hrem.
      unfold _create_job, new_Job; run_monad.
      destruct force; cbn; unfold named_count, all_jobs in *; cbn;
        rewrite ?Hcached, ?Hneq, ?name_eqb_refl; cbn;
        rewrite ?named_length_app in *; cbn;
        rewrite ?Hcached, ?Hneq, ?name_eqb_refl; cbn; lia.
    + unfold _create_job, new_Job; run_monad.
      destruct force; cbn; unfold named_count, all_jobs in *; cbn;
        rewrite ?Hcached, ?Hneq, ?name_eqb_refl; cbn;
        rewrite ?named_length_app in *; cbn;
        rewrite ?Hcached, ?Hneq, ?name_eqb_refl; cbn; lia.
Qed.

Lemma admission_name_counts_witness :
  named_count (Some "B")
    (state_of (priority_enqueue_or_raise actB' true 3 (loop busy))) = 1%nat
  /\ named_count (Some "A")
       (state_of (priority_enqueue_or_raise actB' true 3 (loop busy))) = 1%nat
  /\ named_count (Some "B") (state_of (enqueue actB' 3 (loop busy))) = 2%nat
  /\ named_count (Some "B") (state_of (enqueue_or_ignore actB' 3 (loop busy)))
     = 1%nat
  /\ named_count None
       (state_of (enqueue_or_ignore anon' 1 (loop nameless_queued))) = 2%nat
  /\ named_count None
       (state_of (priority_enqueue_or_raise anon' false 1
                    (loop nameless_queued))) = 1%nat.
Proof.
  assert (Hwf : well_formed (loop busy)).
  { split; [|split]; cbn.
    - repeat constructor; cbn; intuition discriminate.
    - intros j [<-|[<-|[]]]; cbn; split; (lia || reflexivity).
    - intros j [<-|[]]. repeat split. }
  assert (Hwf' : well_formed (loop nameless_queued)).
  { split; [|split]; cbn.
    - repeat constructor; cbn; intuition discriminate.
    - intros j [<-|[<-|[<-|[]]]]; cbn; split; (lia || reflexivity).
    - intros j [<-|[<-|[]]]; repeat split. }
  destruct (@admission_name_counts actB' 3 (loop busy) Hwf)
    as (Henq & Hign & Hsame & Hother).
  destruct (@admission_name_counts anon' 1 (loop nameless_queued) Hwf')
    as (_ & Hign' & Hsame' & _).
  split; [|split; [|split; [|split; [|split]]]].
  - exact (Hsame true).
  - apply (Hother true (Some "A")). discriminate.
  - exact Henq.
  - exact Hign.
  - exact Hign'.
  - exact (Hsame' false).
Defined.

(** X8: the two de-duplicating calls never raise, and their return value
    tells whether the scheduler has grown: the number of jobs in [queue],
    [force_start] and [running_jobs] goes up by one when they return true and
    stays as it was when they return false. *)
Theorem dedup_return_value (a : Action) (force : bool) (t : Z) (s : MainLoop) :
  (exists b s',
     enqueue_or_ignore a t s = Ok b s'
     /\ get_queue_length s' = get_queue_length s + (if b then 1 else 0))
  /\ (exists b s',
        priority_enqueue_or_raise a force t s = Ok b s'
        /\ get_queue_length s' = get_queue_length s + (if b then 1 else 0)).
Proof.
  unfold get_queue_length. split.
  - destruct (enqueue_or_ignore_cases a t s) as [H|H]; rewrite H.
    + exists false, s. split; [reflexivity | lia].
    + eexists true, _. split; [reflexivity|].
      cbn [queue force_start running_jobs set_queue set_next_jid].
      rewrite List.length_app. cbn [List.length]. lia.
  - unfold priority_enqueue_or_raise; run_monad.
    destruct (first_named (aname a) (force_start s ++ running_jobs s))
      as [j|] eqn:Efr.
    + exists false, s. split; [reflexivity | lia].
    + destruct (first_named (aname a) (queue s)) as [ex|] eqn:Eq.
      * pose proof (first_named_remove_length _ _ Eq) as Hlen.
        unfold _create_job, new_Job; run_monad.
        destruct force; eexists false, _; (split; [reflexivity|]);
          cbn [queue force_start running_jobs set_queue set_force_start
               set_next_jid];
          rewrite ?List.length_app; cbn [List.length]; lia.
      * unfold _create_job, new_Job; run_monad.
        destruct force; eexists true, _; (split; [reflexivity|]);
          cbn [queue force_start running_jobs set_queue set_force_start
               set_next_jid];
          rewrite ?List.length_app; cbn [List.length]; lia.
Qed.

(** ** The sleepers *)

Lemma sleeping_pass (s : MainLoop) :
  sleeping_actions (state_of (run_pass s)) = sleeping_actions s.
Proof.
  destruct (run_pass_cases s)
    as [es [H|[[H _]|(job & rest & _ & _ & _ & H)]]]; rewrite H; cbn;
    now autorewrite with fields.
Qed.

Lemma sleeping_step (op : Op) (sys : System) :
  not_sleep_wake op = true ->
  sleeping_actions (loop (exec op sys)) = sleeping_actions (loop sys).
Proof.
  intros Hop. destruct op; try discriminate; cbn [exec].
  - apply call_cases; [reflexivity|]. now rewrite enqueue_eq.
  - apply call_cases; [reflexivity|]. api; reflexivity.
  - apply call_cases; [reflexivity|]. api; reflexivity.
  - apply call_cases; [reflexivity|]. api; reflexivity.
  - apply call_cases; reflexivity.
  - apply call_cases; reflexivity.
  - apply call_cases; [reflexivity|]. api; reflexivity.
  - apply call_cases; reflexivity.
  - reflexivity.
  - unfold coordinator_step. destruct (coordinator sys); try reflexivity.
    destruct (shutdown_now (loop sys)); [reflexivity|].
    pose proof (sleeping_pass (loop sys)) as H.
    destruct (run_pass (loop sys)); exact H.
Qed.

(** X9: only the sleep and wake notifications ever change
    [sleeping_actions].  No pass of the coordinator and no other call takes an
    action out of it, so an action whose job ends while it is marked sleeping
    stays in [sleeping_actions], and goes on lowering the active count, after
    the job has been reaped; and once no running job holds it, a wake
    notification for it raises AssertionError. *)
Theorem sleepers_stay (ops : list Op) (sys : System) (a : Action) :
  forallb not_sleep_wake ops = true ->
  sleeping_actions (loop (exec_all ops sys)) = sleeping_actions (loop sys)
  /\ (In a (sleeping_actions (loop sys)) ->
      ~ In a (get_running_actions (loop (exec_all ops sys))) ->
      In a (sleeping_actions (loop (exec_all ops sys)))
      /\ _action_wake_notify a (loop (exec_all ops sys))
         = Raise AssertionError (loop (exec_all ops sys))).
Proof.
  intros Hops.
  assert (Hsame : sleeping_actions (loop (exec_all ops sys))
                  = sleeping_actions (loop sys)).
  { revert sys. induction ops as [|op ops IH]; intros sys; [reflexivity|].
    cbn in Hops. apply andb_prop in Hops as [Hop Hops]. cbn [exec_all].
    rewrite (IH Hops). now apply sleeping_step. }
  split; [exact Hsame|]. intros Hin Hgone. split; [now rewrite Hsame|].
  unfold _action_wake_notify; run_monad.
  now rewrite (not_true_false (in_progress_In a _) Hgone).
Qed.

Lemma sleepers_stay_witness :
  In actA (sleeping_actions
             (loop (exec_all [thread_ends 0 None; coordinator_runs] asleep)))
  /\ active (loop (exec_all [thread_ends 0 None; coordinator_runs] asleep)) = 0
  /\ map name (running_jobs
                 (loop (exec_all [thread_ends 0 None; coordinator_runs] asleep)))
     = [Some "B"].
Proof.
  destruct (@sleepers_stay [thread_ends 0 None; coordinator_runs] asleep actA
              eq_refl) as [_ Hstale].
  split; [|split; reflexivity].
  apply Hstale.
  - cbn. now left.
  - cbn. intros [H|[]]. discriminate.
Defined.

Lemma remove_action_last (a : Action) (xs : list Action) :
  ~ In a xs -> remove_action a (xs ++ [a]) = xs.
Proof.
  induction xs as [|y xs IH]; cbn; intros Hn.
  - now rewrite action_eqb_refl.
  - destruct (action_eqb y a) eqn:E.
    + apply action_eqb_eq in E. exfalso. apply Hn. now left.
    + f_equal. apply IH. intros H. apply Hn. now right.
Qed.

Lemma remove_action_occurrences (a b : Action) (xs : list Action) :
  In a xs ->
  count_occ Action_eq_dec xs b
  = (count_occ Action_eq_dec (remove_action a xs) b
     + (if Action_eq_dec a b then 1 else 0))%nat.
Proof.
  induction xs as [|y xs IH]; cbn [remove_action]; intros Hin; [destruct Hin|].
  unfold action_eqb. destruct (Action_eq_dec y a) as [->|Hne].
  - cbn [count_occ]. destruct (Action_eq_dec a b); lia.
  - assert (Hin' : In a xs) by (destruct Hin; [contradiction | assumption]).
    cbn [count_occ]. rewrite (IH Hin').
    destruct (Action_eq_dec y b); lia.
Qed.

Lemma sleep_notify_ok (a : Action) (s : MainLoop) :
  in_progress a s = true ->
  _action_sleep_notify a s
  = Ok tt (set_sleeping_actions (sleeping_actions s ++ [a]) s).
Proof.
  intros Hp. unfold _action_sleep_notify; run_monad. now rewrite Hp.
Qed.

Lemma wake_notify_ok (a : Action) (s : MainLoop) :
  in_progress a s = true -> action_in a (sleeping_actions s) = true ->
  _action_wake_notify a s
  = Ok tt (set_sleeping_actions (remove_action a (sleeping_actions s)) s).
Proof.
  intros Hp Hs. unfold _action_wake_notify; run_monad.
  rewrite Hp; cbn. now rewrite Hs.
Qed.

(** X10: for a running action, a sleep notification followed by a wake
    notification raises nothing and leaves every action marked sleeping as
    often as it was; when the action was not marked sleeping before, the
    scheduler is back in the very state it was in. *)
Theorem sleep_then_wake (a : Action) (s : MainLoop) :
  In a (get_running_actions s) ->
  exists s',
    (_action_sleep_notify a ;; _action_wake_notify a) s = Ok tt s'
    /\ (forall b, count_occ Action_eq_dec (sleeping_actions s') b
                  = count_occ Action_eq_dec (sleeping_actions s) b)
    /\ running_jobs s' = running_jobs s /\ queue s' = queue s
    /\ (~ In a (sleeping_actions s) -> s' = s).
Proof.
  intros Hrun. pose proof (proj2 (in_progress_In a s) Hrun) as Hp.
  assert (Hin : action_in a (sleeping_actions s ++ [a]) = true)
    by (apply action_in_In, in_or_app; right; now left).
  eexists. split; [|split; [|split; [|split]]].
  - unfold bind. rewrite (sleep_notify_ok _ _ Hp).
    rewrite wake_notify_ok; [reflexivity | exact Hp | exact Hin].
  - intros b. cbn.
    pose proof (@remove_action_occurrences a b (sleeping_actions s ++ [a])) as H.
    rewrite count_occ_app in H. cbn [count_occ] in H.
    specialize (H (proj1 (action_in_In _ _) Hin)).
    destruct (Action_eq_dec a b); lia.
  - reflexivity.
  - reflexivity.
  - intros Hn. cbn. rewrite (@remove_action_last a _ Hn). now destruct s.
Qed.

Lemma sleep_then_wake_witness :
  (_action_sleep_notify actA ;; _action_wake_notify actA) (loop busy)
  = Ok tt (loop busy).
Proof.
  destruct (@sleep_then_wake actA (loop busy)) as (s' & Hrun & _ & _ & _ & Hback).
  - cbn. now left.
  - rewrite Hrun. f_equal. apply Hback. intros [].
Defined.

(** ** Looking an action up *)

Lemma find_first {A} (f : A -> bool) (l : list A) (x : A) :
  find f l = Some x ->
  exists pre post, l = pre ++ x :: post /\ f x = true
                   /\ forall y, In y pre -> f y = false.
Proof.
  induction l as [|y l IH]; cbn; [discriminate|].
  destruct (f y) eqn:E.
  - intros [= ->]. exists [], l. repeat split; [assumption | intros z []].
  - intros H. destruct (IH H) as (pre & post & -> & Hx & Hpre).
    exists (y :: pre), post. repeat split; [assumption|].
    intros z [<-|Hz]; [assumption | now apply Hpre].
Qed.

(** X11: [_get_action_from_hash] returns an action that a job in [queue],
    [force_start] or [running_jobs] holds and whose hash is the one asked for,
    namely that of the first such job in the order queue, force_start,
    running_jobs; it returns [None] exactly when no job holds an action with
    that hash.  Right after [enqueue(a)], the hash of [a] is found. *)
Theorem get_action_from_hash_spec (h : Z) (s : MainLoop) :
  (forall a, _get_action_from_hash h s = Some a ->
     ahash a = h /\ in_queue a s = true
     /\ exists pre j post,
          all_jobs s = pre ++ j :: post /\ action j = a
          /\ forall x, In x pre -> ahash (action x) <> h)
  /\ (_get_action_from_hash h s = None <->
      forall j, In j (all_jobs s) -> ahash (action j) <> h)
  /\ (forall a t,
        exists b, _get_action_from_hash (ahash a) (state_of (enqueue a t s))
                  = Some b /\ ahash b = ahash a).
Proof.
  unfold _get_action_from_hash. split; [|split].
  - intros a Ha.
    destruct (find (fun j => ahash (action j) =? h) (all_jobs s)) as [j|] eqn:E;
      [|discriminate].
    injection Ha as <-.
    destruct (find_first _ _ E) as (pre & post & Hall & Hj & Hpre).
    apply Z.eqb_eq in Hj. split; [assumption | split].
    + apply in_queue_In. rewrite Hall, map_app. apply in_or_app. right. now left.
    + exists pre, j, post. repeat split; [assumption|].
      intros x Hx. apply Z.eqb_neq. now apply Hpre.
  - split.
    + intros H j Hj.
      destruct (find (fun j => ahash (action j) =? h) (all_jobs s)) eqn:E;
        [discriminate|].
      apply Z.eqb_neq. exact (find_none _ _ E j Hj).
    + intros H. rewrite find_nowhere; [reflexivity|].
      intros j Hj. apply Z.eqb_neq. now apply H.
  - intros a t.
    destruct (find (fun j => ahash (action j) =? ahash a)
                (all_jobs (state_of (enqueue a t s)))) as [j|] eqn:E.
    + exists (action j). split; [reflexivity|].
      apply find_some in E as [_ E]. now apply Z.eqb_eq.
    + exfalso.
      assert (Hin : In (created_job s a t) (all_jobs (state_of (enqueue a t s)))).
      { rewrite enqueue_eq. unfold all_jobs; cbn.
        apply in_or_app. left. apply in_or_app. right. now left. }
      pose proof (find_none _ _ E _ Hin) as Hno. cbn in Hno.
      now rewrite Z.eqb_refl in Hno.
Qed.

Lemma get_action_from_hash_witness :
  _get_action_from_hash 101 (loop busy) = Some actA
  /\ ahash actA = 101 /\ in_queue actA (loop busy) = true.
Proof.
  destruct (get_action_from_hash_spec 101 (loop busy)) as (Hfound & _ & _).
  destruct (Hfound actA eq_refl) as (Hh & Hq & _).
  split; [reflexivity | split; assumption].
Defined.

(** ** Waiting on a drained scheduler *)

Lemma drained_nothing_in_queue (s : MainLoop) (a : Action) :
  get_queue_length s = 0 -> in_queue a s = false.
Proof.
  intros H0.
  assert (Hz : (get_queue_length s >? 0) = false) by (rewrite H0; reflexivity).
  apply queue_length_zero in Hz as (Hq & Hf & Hr).
  unfold in_queue, all_jobs. now rewrite Hq, Hf, Hr.
Qed.

(** X12: on a scheduler with no job in [queue], [force_start] and
    [running_jobs], [wait_until_done] and [wait_for], for an action or for a
    hash, all return at once; so when [wait_until_done] returns, a [wait_for]
    called next does not block.  And the action of a job that is still there
    makes [wait_for] wait. *)
Theorem drained_waits_return (s : MainLoop) (wakeups : list MainLoop) :
  (get_queue_length s = 0 ->
     wait_until_done s wakeups = Some (s, wakeups)
     /\ forall x, wait_for x s wakeups = Some (s, wakeups))
  /\ (forall s' rest x,
        wait_until_done s wakeups = Some (s', rest) ->
        wait_for x s' rest = Some (s', rest))
  /\ (forall j, In j (all_jobs s) ->
        wait_for (an_action (action j)) s [] = None
        /\ wait_until_done s [] = None).
Proof.
  assert (Hdrained : forall s0 ws x,
             get_queue_length s0 = 0 -> wait_for x s0 ws = Some (s0, ws)).
  { intros s0 ws [a|h] H0; cbn.
    - destruct ws; cbn; now rewrite (drained_nothing_in_queue _ a H0).
    - unfold _get_action_from_hash.
      assert (Hz : (get_queue_length s0 >? 0) = false)
        by (rewrite H0; reflexivity).
      apply queue_length_zero in Hz as (Hq & Hf & Hr).
      unfold all_jobs. rewrite Hq, Hf, Hr. reflexivity. }
  split; [|split].
  - intros H0. split; [|intros x; now apply Hdrained].
    unfold wait_until_done. destruct wakeups; cbn; now rewrite H0.
  - intros s' rest x Hret. apply Hdrained.
    unfold wait_until_done in Hret.
    apply wait_while_returns in Hret as (seen & _ & _ & Hz).
    unfold get_queue_length in *.
    rewrite Z.gtb_ltb in Hz. apply Z.ltb_ge in Hz. lia.
  - intros j Hj. split.
    + cbn. replace (in_queue (action j) s) with true; [reflexivity|].
      symmetry. apply in_queue_In. now apply in_map.
    + unfold wait_until_done; cbn.
      replace (get_queue_length s >? 0) with true; [reflexivity|].
      symmetry. apply queue_length_pos. intros H. rewrite H in Hj. destruct Hj.
Qed.

Lemma drained_waits_return_witness :
  wait_until_done init [] = Some (init, [])
  /\ wait_for (a_hash 7) init [] = Some (init, [])
  /\ wait_for (an_action actA) (loop busy) [] = None.
Proof.
  destruct (drained_waits_return init []) as (Hidle & _ & _).
  destruct (Hidle eq_refl) as [Hdone Hfor].
  destruct (drained_waits_return (loop busy) []) as (_ & _ & Hbusy).
  split; [exact Hdone | split; [apply Hfor|]].
  apply (Hbusy (nth 0 (running_jobs (loop busy)) failed_once)).
  cbn. right. now left.
Defined.

(** ** Pausing *)

(** X13: [pause()] takes effect from any state: once it has been called, and
    until [resume()] is, whatever else is called and however many passes the
    coordinator makes, [is_paused()] answers true and no pass takes a job out
    of the queue; a pass still starts the force-started jobs.  [resume()]
    clears the flag, and neither call touches anything else. *)
Theorem pause_holds (sys : System) (ops : list Op) :
  monitor_free sys = true ->
  forallb not_resume ops = true ->
  is_paused (loop (exec_all ops (exec call_pause sys))) = true
  /\ (forall p s',
        run_pass (loop (exec_all ops (exec call_pause sys))) = Ok p s' ->
        p = waits
        /\ queue s' = queue (loop (exec_all ops (exec call_pause sys)))
        /\ running_jobs s'
           = kept (loop (exec_all ops (exec call_pause sys)))
             ++ map started
                  (force_start (loop (exec_all ops (exec call_pause sys)))))
  /\ loop (exec call_pause sys) = set_paused true (loop sys)
  /\ loop (exec call_resume sys) = set_paused false (loop sys).
Proof.
  intros Hfree Hops.
  assert (Hp : paused (loop (exec call_pause sys)) = true)
    by reflexivity.
  pose proof (paused_run ops _ Hops Hp) as Hstill.
  split; [exact Hstill | split; [|split]].
  - intros p s' Hrun.
    destruct (proj2 (paused_pass _ Hstill) p s' Hrun) as (H1 & H2 & _ & H4).
    auto.
  - reflexivity.
  - reflexivity.
Qed.

Lemma pause_holds_witness :
  is_paused (loop (exec_all [call_enqueue actC 1; thread_ends 0 None;
                             coordinator_runs] (exec call_pause busy))) = true
  /\ map name (queue (loop (exec_all [call_enqueue actC 1; thread_ends 0 None;
                                      coordinator_runs] (exec call_pause busy))))
     = [Some "B"; Some "C"].
Proof.
  destruct (@pause_holds busy [call_enqueue actC 1; thread_ends 0 None;
                               coordinator_runs] eq_refl eq_refl) as [Hp _].
  split; [exact Hp | reflexivity].
Defined.

(** ** A dead coordinator *)

Lemma dead_step (op : Op) (sys : System) (e : Exn) :
  coordinator sys = died e ->
  coordinator (exec op sys) = died e
  /\ fired (loop (exec op sys)) = fired (loop sys)
  /\ map jid (running_jobs (loop (exec op sys)))
     = map jid (running_jobs (loop sys))
  /\ get_queue_length (loop sys) <= get_queue_length (loop (exec op sys)).
Proof.
  intros Hd. split.
  - destruct op; cbn [exec]; try exact Hd.
    unfold coordinator_step. rewrite Hd. exact Hd.
  - unfold get_queue_length. destruct op; cbn [exec loop].
    12:{ unfold coordinator_step. rewrite Hd. repeat split; lia. }
    11:{ split; [reflexivity | split; [apply jid_ended|]].
         cbn; rewrite List.length_map; lia. }
    all: apply call_cases; [repeat split; lia|].
    all: api; repeat split; try reflexivity;
      cbn; rewrite ?List.length_app; cbn; try lia.
    all: match goal with
         | H : first_named _ (queue _) = Some _ |- _ =>
             apply first_named_remove_length in H; lia
         end.
Qed.

Lemma dead_history (e : Exn) (ops : list Op) : forall sys,
  coordinator sys = died e ->
  Forall (fun x => coordinator x = died e
                   /\ fired (loop x) = fired (loop sys)
                   /\ map jid (running_jobs (loop x))
                      = map jid (running_jobs (loop sys))
                   /\ get_queue_length (loop sys) <= get_queue_length (loop x))
         (history ops sys).
Proof.
  induction ops as [|op ops IH]; intros sys Hd; cbn; [constructor|].
  destruct (dead_step op sys Hd) as (H1 & H2 & H3 & H4).
  constructor; [repeat split; assumption|].
  eapply Forall_impl; [|exact (IH (exec op sys) H1)]. cbn.
  intros x (Ha & Hb & Hc & Hq). rewrite Hb, Hc, H2, H3.
  repeat split; try assumption; try reflexivity. lia.
Qed.

(** X14: once the coordinator has died of an exception that escaped [run],
    no pass is made any more.  Whatever calls of the API still get into the
    monitor and whichever threads end, in every later state the coordinator
    is as dead, no further signal has been fired, the running jobs are the
    same Job objects (none is started, none is reaped) and the number of jobs
    has not gone down; so a caller of [wait_until_done] that finds a job in
    the scheduler never returns. *)
Theorem dead_coordinator_stalls (sys : System) (ops : list Op) (e : Exn) :
  coordinator sys = died e ->
  Forall (fun x => coordinator x = died e
                   /\ fired (loop x) = fired (loop sys)
                   /\ map jid (running_jobs (loop x))
                      = map jid (running_jobs (loop sys))
                   /\ get_queue_length (loop sys) <= get_queue_length (loop x))
         (history ops sys)
  /\ (0 < get_queue_length (loop sys) ->
      wait_until_done (loop sys) (map loop (history ops sys)) = None).
Proof.
  intros Hd. pose proof (dead_history ops sys Hd) as Hall.
  split; [exact Hall|].
  intros Hjobs. unfold wait_until_done. apply wait_while_blocked.
  constructor; [now apply Z.gtb_lt|].
  apply Forall_map. eapply Forall_impl; [|exact Hall]. cbn.
  intros x (_ & _ & _ & Hq). apply Z.gtb_lt. lia.
Qed.

Lemma dead_coordinator_stalls_witness :
  Forall (fun x => coordinator x = died (NameError "copy")
                   /\ fired (loop x) = fired (loop stalled)
                   /\ map jid (running_jobs (loop x))
                      = map jid (running_jobs (loop stalled))
                   /\ get_queue_length (loop stalled)
                      <= get_queue_length (loop x))
         (history [call_shutdown; call_enqueue actC 1; coordinator_runs]
                  stalled)
  /\ wait_until_done (loop stalled)
       (map loop (history [call_shutdown; call_enqueue actC 1;
                           coordinator_runs] stalled)) = None.
Proof.
  destruct (@dead_coordinator_stalls stalled
              [call_shutdown; call_enqueue actC 1; coordinator_runs]
              (NameError "copy") eq_refl) as [Hall Hwait].
  split; [exact Hall | apply Hwait; vm_compute; reflexivity].
Defined.

(** After the death of the coordinator a caller that is let into the monitor
    still changes the scheduler: [shutdown()] sets its flag and the enqueued
    job is put in the queue, where it stays. *)
Example calls_after_the_death :
  shutdown_now (loop (exec_all [call_shutdown; call_enqueue actC 1;
                                coordinator_runs] stalled)) = true
  /\ map name (queue (loop (exec_all [call_shutdown; call_enqueue actC 1;
                                      coordinator_runs] stalled)))
     = [Some "B"; Some "C"]
  /\ fired (loop (exec_all [call_shutdown; call_enqueue actC 1;
                            coordinator_runs] stalled))
     = [job_started_event actA; job_error_event actA "boom"].
Proof. vm_compute. repeat split; reflexivity. Qed.

(** ** The life of one job *)

(** X15: on a new scheduler that has been resumed, a job that is enqueued is
    started by the next pass.  If its attempt succeeds, the pass after fires
    job-succeeded and then queue-empty.  If it fails and [times <= 1], that
    pass fires job-error, job-aborted and queue-empty, and the coordinator
    goes on.  If it fails and [times > 1], that pass fires job-error and the
    coordinator dies of the NameError: there is no second attempt, no
    job-aborted, and the job is gone from the scheduler. *)
Theorem single_job_lifecycle (a : Action) (t : Z) (info : string) :
  exec_all [call_resume; call_enqueue a t; coordinator_runs] boot
  = mkSystem (fire (job_started_event a)
                (set_running_jobs [started (created_job init a t)]
                   (set_next_jid 1 (set_paused false init))))
             looping
  /\ fired (loop (exec_all [call_resume; call_enqueue a t; coordinator_runs;
                           thread_ends 0 None; coordinator_runs] boot))
     = [job_started_event a; job_succeeded_event a; queue_empty_event]
  /\ (t <= 1 ->
      exec_all [call_resume; call_enqueue a t; coordinator_runs;
                thread_ends 0 (Some info); coordinator_runs] boot
      = mkSystem (fire_all [job_started_event a; job_error_event a info;
                            job_aborted_event a; queue_empty_event]
                    (set_next_jid 1 (set_paused false init)))
                 looping)
  /\ (1 < t ->
      exec_all [call_resume; call_enqueue a t; coordinator_runs;
                thread_ends 0 (Some info); coordinator_runs] boot
      = mkSystem (fire_all [job_started_event a; job_error_event a info]
                    (set_next_jid 1 (set_paused false init)))
                 (died (NameError "copy"))).
Proof.
  split; [reflexivity | split; [reflexivity | split]].
  - intros Ht. destruct t as [|p|p]; [reflexivity | | reflexivity].
    destruct p; try lia. reflexivity.
  - intros Ht. destruct t as [|p|p]; try lia.
    destruct p; try lia; reflexivity.
Qed.

Lemma single_job_lifecycle_witness :
  coordinator (exec_all [call_resume; call_enqueue actA 1; coordinator_runs;
                         thread_ends 0 (Some "boom"); coordinator_runs] boot)
  = looping
  /\ coordinator (exec_all [call_resume; call_enqueue actA 3; coordinator_runs;
                            thread_ends 0 (Some "boom"); coordinator_runs] boot)
     = died (NameError "copy").
Proof.
  destruct (single_job_lifecycle actA 1 "boom") as (_ & _ & Hgiveup & _).
  destruct (single_job_lifecycle actA 3 "boom") as (_ & _ & _ & Hretry).
  split.
  - rewrite Hgiveup; [reflexivity | lia].
  - rewrite Hretry; [reflexivity | lia].
Defined.

(** ** The running actions *)

(** X16: after a pass that does not die, [get_running_actions()] lists the
    actions of the jobs whose thread is still alive, then those of the
    force-started jobs, then that of the admitted job, in this order; each of
    them is in progress and in the queue of the scheduler, which is therefore
    not drained.  An action that no running job holds is not in progress. *)
Theorem running_actions_after_pass (s : MainLoop) (p : Pass) (s' : MainLoop) :
  run_pass s = Ok p s' ->
  get_running_actions s'
  = map action (kept s) ++ map action (force_start s)
    ++ match p with admitted job => [action job] | waits => [] end
  /\ (forall a, in_progress a s' = true <-> In a (get_running_actions s'))
  /\ (forall a, in_progress a s' = true ->
        in_queue a s' = true /\ 0 < get_queue_length s'
        /\ wait_for (an_action a) s' [] = None).
Proof.
  intros Hrun.
  split; [|split].
  - unfold get_running_actions. destruct p as [|job].
    + destruct (run_pass_waits _ Hrun) as (_ & -> & _).
      rewrite map_app, map_map, app_nil_r. reflexivity.
    + destruct (run_pass_admitted _ Hrun) as (_ & -> & _).
      rewrite !map_app, map_map. reflexivity.
  - intros a. apply in_progress_In.
  - intros a Ha. apply in_progress_In in Ha.
    assert (Hq : in_queue a s' = true).
    { apply in_queue_In. unfold all_jobs. rewrite !map_app.
      apply in_or_app; right. apply in_or_app; right. exact Ha. }
    split; [exact Hq | split].
    + unfold get_queue_length, get_running_actions in *.
      destruct (running_jobs s'); [destruct Ha|]. cbn [List.length]. lia.
    + cbn. now rewrite Hq.
Qed.

Lemma running_actions_after_pass_witness :
  exists s',
    run_pass (loop one_ended)
    = Ok (admitted (nth 0 (queue (loop one_ended)) failed_once)) s'
    /\ get_running_actions s' = [actB].
Proof.
  destruct (run_pass (loop one_ended)) as [p s'|e s'] eqn:E;
    [|vm_compute in E; discriminate].
  exists s'.
  destruct (running_actions_after_pass _ E) as (Hacts & _).
  assert (Hp : p = admitted (nth 0 (queue (loop one_ended)) failed_once))
    by (vm_compute in E; injection E as <- _; reflexivity).
  subst p. split; [reflexivity | exact Hacts].
Defined.

(** ** Every started job is accounted for *)

Lemma count_app (f : Event -> bool) (l l' : list Event) :
  List.length (filter f (l ++ l'))
  = (List.length (filter f l) + List.length (filter f l'))%nat.
Proof. now rewrite filter_app, List.length_app. Qed.

Lemma jobs_of_app (a : Action) (l l' : list Job) :
  jobs_of a (l ++ l') = (jobs_of a l + jobs_of a l')%nat.
Proof. unfold jobs_of. now rewrite filter_app, List.length_app. Qed.

Lemma jobs_of_single (a : Action) (j : Job) :
  jobs_of a [j] = if action_eqb (action j) a then 1%nat else 0%nat.
Proof.
  unfold jobs_of. cbn. now destruct (action_eqb (action j) a).
Qed.

Lemma jobs_of_map (a : Action) (f : Job -> Job) (l : list Job) :
  (forall j, action (f j) = action j) ->
  jobs_of a (map f l) = jobs_of a l.
Proof.
  intros Hf. unfold jobs_of. induction l as [|j l IH]; [reflexivity|].
  cbn. rewrite Hf. destruct (action_eqb (action j) a); cbn; now rewrite IH.
Qed.

Lemma settled_signals (a : Action) (jobs : list Job) :
  forallb settled jobs = true ->
  List.length (filter (is_terminal_of a) (flat_map outcome_signals jobs))
  = jobs_of a jobs
  /\ List.length (filter (is_started_of a) (flat_map outcome_signals jobs))
     = 0%nat.
Proof.
  unfold jobs_of.
  induction jobs as [|j jobs IH]; cbn [forallb flat_map]; [split; reflexivity|].
  intros H. apply andb_prop in H as [Hj Hall]. destruct (IH Hall) as [IH1 IH2].
  rewrite !count_app, IH1, IH2. cbn [filter].
  unfold settled, to_retry, outcome_signals in *.
  destruct (exc_info j) as [info|].
  - destruct (failures j >=? times j); [|discriminate].
    cbn. destruct (action_eqb (action j) a); split; reflexivity.
  - cbn. destruct (action_eqb (action j) a); split; reflexivity.
Qed.

Lemma retry_signals (a : Action) (j : Job) :
  to_retry j = true ->
  List.length (filter (is_terminal_of a) (outcome_signals j)) = 0%nat
  /\ List.length (filter (is_started_of a) (outcome_signals j)) = 0%nat.
Proof.
  unfold to_retry, outcome_signals.
  destruct (exc_info j) as [info|]; [|discriminate].
  destruct (failures j >=? times j); [discriminate | split; reflexivity].
Qed.

Lemma idle_signals (a : Action) (s : MainLoop) :
  List.length (filter (is_terminal_of a) (idle_signal s)) = 0%nat
  /\ List.length (filter (is_started_of a) (idle_signal s)) = 0%nat.
Proof.
  unfold idle_signal.
  destruct (queue s), (force_start s), (kept s); split; reflexivity.
Qed.

Lemma started_signals (a : Action) (jobs : list Job) :
  List.length (filter (is_terminal_of a)
                 (map (fun j => job_started_event (action j)) jobs)) = 0%nat
  /\ List.length (filter (is_started_of a)
                    (map (fun j => job_started_event (action j)) jobs))
     = jobs_of a jobs.
Proof.
  unfold jobs_of.
  induction jobs as [|j jobs [IH1 IH2]]; [split; reflexivity|].
  cbn. split; [exact IH1|].
  destruct (action_eqb (action j) a); cbn; now rewrite IH2.
Qed.

Lemma kept_completed (a : Action) (s : MainLoop) :
  (jobs_of a (kept s) + jobs_of a (completed s))%nat
  = jobs_of a (running_jobs s).
Proof.
  unfold kept, completed, jobs_of.
  induction (running_jobs s) as [|j l IH]; [reflexivity|].
  cbn. destruct (alive j); cbn; destruct (action_eqb (action j) a); cbn; lia.
Qed.

Lemma accounted_pass (a : Action) (s : MainLoop) :
  accounted true a s ->
  match run_pass s with
  | Ok _ s' => accounted true a s'
  | Raise _ s' => accounted false a s'
  end.
Proof.
  intros [_ Heq]. specialize (Heq eq_refl).
  pose proof (kept_completed a s) as Hkc.
  assert (Hst : forall l, jobs_of a (map started l) = jobs_of a l)
    by (intros l; now apply jobs_of_map).
  unfold accounted, fired_count in *.
  destruct (run_pass s) as [p s'|e s'] eqn:Hrun.
  - assert (Hall : forallb settled (completed s) = true).
    { destruct (forallb settled (completed s)) eqn:E; [reflexivity|].
      destruct (run_pass_unsettled s E) as [es H]. congruence. }
    rewrite (run_pass_fired _ Hrun). rewrite !count_app.
    destruct (settled_signals a _ Hall) as [T1 S1].
    destruct (idle_signals a s) as [T2 S2].
    destruct (started_signals a (force_start s)) as [T3 S3].
    rewrite T1, S1, T2, S2, T3, S3.
    destruct p as [|job].
    + destruct (run_pass_waits _ Hrun) as (_ & -> & _).
      rewrite jobs_of_app, Hst. cbn. split; [|intros _]; lia.
    + destruct (run_pass_admitted _ Hrun) as (_ & -> & _).
      rewrite !jobs_of_app, Hst, jobs_of_single. cbn.
      destruct (action_eqb (action job) a); cbn; (split; [|intros _]); lia.
  - split; [|discriminate].
    destruct (forallb settled (completed s)) eqn:E.
    + rewrite (run_pass_settled s E) in Hrun.
      destruct (admit_next_cases
                  (fire_all (flat_map outcome_signals (completed s)
                             ++ idle_signal s
                             ++ map (fun j => job_started_event (action j))
                                  (force_start s))
                     (set_force_start []
                        (set_running_jobs (kept_and_forced s) s))))
        as [[Hw _]|(job & rest & _ & _ & _ & Had)]; congruence.
    + destruct (first_unsettled _ E) as (pre & j & post & Hc & Hpre & Hj).
      pose proof (reap_retry s pre post j Hc Hpre Hj) as H1.
      unfold run_pass, bind in Hrun. rewrite H1 in Hrun.
      injection Hrun as _ <-. autorewrite with fields; cbn.
      rewrite !count_app.
      destruct (settled_signals a _ Hpre) as [T1 S1].
      destruct (retry_signals a _ Hj) as [T2 S2].
      rewrite T1, S1, T2, S2.
      rewrite Hc, jobs_of_app in Hkc. lia.
Qed.

Lemma accounted_step (a : Action) (op : Op) (sys : System) :
  accounted (monitor_free sys) a (loop sys) ->
  accounted (monitor_free (exec op sys)) a (loop (exec op sys)).
Proof.
  intros Hacc.
  assert (Hcall : forall A (m : M A),
             fired (state_of (m (loop sys))) = fired (loop sys) ->
             running_jobs (state_of (m (loop sys))) = running_jobs (loop sys) ->
             accounted (monitor_free (call m sys)) a (loop (call m sys))).
  { intros A m Hf Hr. unfold call.
    change (monitor_free (mkSystem (state_of (m (loop sys))) (coordinator sys)))
      with (monitor_free sys).
    cbn [loop]. unfold accounted, fired_count in *. rewrite Hf, Hr. exact Hacc. }
  destruct op; cbn [exec].
  - apply Hcall; rewrite enqueue_eq; reflexivity.
  - apply Hcall; api; reflexivity.
  - apply Hcall; api; reflexivity.
  - apply Hcall; api; reflexivity.
  - apply Hcall; reflexivity.
  - apply Hcall; reflexivity.
  - apply Hcall; api; reflexivity.
  - apply Hcall; api; reflexivity.
  - apply Hcall; api; reflexivity.
  - apply Hcall; reflexivity.
  - unfold monitor_free, accounted, fired_count in *. cbn.
    rewrite jobs_of_map; [exact Hacc|].
    intros x. destruct (Nat.eqb (jid x) j && alive x); [|reflexivity].
    destruct outcome; reflexivity.
  - unfold coordinator_step, monitor_free in *.
    destruct (coordinator sys) eqn:Hc; try (rewrite Hc; exact Hacc).
    destruct (shutdown_now (loop sys)); [exact Hacc|].
    pose proof (accounted_pass Hacc) as Hp.
    destruct (run_pass (loop sys)); exact Hp.
Qed.

(** X17: in every state a new scheduler can reach and for every action [a],
    the number of job-succeeded and job-aborted signals fired for [a] plus
    the number of jobs of [a] in [running_jobs] is at most the number of
    job-started signals fired for [a]; and as long as the coordinator has not
    died of an exception the two numbers are equal.  The signals carry the
    action, not the Job: the count is by action. *)
Theorem started_jobs_accounted (ops : list Op) (a : Action) :
  (fired_count (is_terminal_of a) (loop (exec_all ops boot))
   + jobs_of a (running_jobs (loop (exec_all ops boot)))
   <= fired_count (is_started_of a) (loop (exec_all ops boot)))%nat
  /\ (monitor_free (exec_all ops boot) = true ->
      fired_count (is_started_of a) (loop (exec_all ops boot))
      = (fired_count (is_terminal_of a) (loop (exec_all ops boot))
         + jobs_of a (running_jobs (loop (exec_all ops boot))))%nat).
Proof.
  assert (Hrun : forall sys,
             accounted (monitor_free sys) a (loop sys) ->
             accounted (monitor_free (exec_all ops sys)) a
                       (loop (exec_all ops sys))).
  { induction ops as [|op ops IH]; intros sys Hacc; [exact Hacc|].
    cbn [exec_all]. apply IH. now apply accounted_step. }
  apply (Hrun boot). split; [apply Nat.le_refl | reflexivity].
Qed.

Lemma started_jobs_accounted_witness :
  fired_count (is_started_of actB) (loop (exec_all twice_started boot))
  = (fired_count (is_terminal_of actB) (loop (exec_all twice_started boot))
     + jobs_of actB (running_jobs (loop (exec_all twice_started boot))))%nat
  /\ fired_count (is_started_of actB) (loop (exec_all twice_started boot))
     = 2%nat
  /\ fired_count (is_terminal_of actB) (loop (exec_all twice_started boot))
     = 1%nat
  /\ fired_count (is_terminal_of actA) (loop (exec_all twice_started boot))
     = 1%nat.
Proof.
  destruct (started_jobs_accounted twice_started actB) as [_ Heq].
  split; [apply Heq; vm_compute; reflexivity|].
  vm_compute. repeat split; reflexivity.
Defined.
